(** * SunshineQ: [scripts/pngs_to_ico.py]

    A shallow embedding of the icon-container synthesizer and of the tag
    parser that feeds it, followed by the properties of the container
    layout, the validation loop, the ordering of the directory and the
    handling of failures. *)

From Stdlib Require Import ZArith Lia List Bool Ascii String Strings.Byte.
From Stdlib Require Import Sorting.Sorted Sorting.Permutation.
From Stdlib Require Import DecimalString DecimalPos.
From stdpp Require Import base option list gmap strings.

Import ListNotations.
Local Open Scope string_scope.
Local Open Scope list_scope.
Local Open Scope Z_scope.

(** ** Bytes and [struct.pack] *)

(** A Python [bytes] value. *)
Abbreviation bytes := (list byte).

Definition byte_of_Z (z : Z) : byte :=
  match Byte.of_N (Z.to_N (z mod 256)) with
  | Some b => b
  | None => x00
  end.

Definition Z_of_byte (b : byte) : Z := Z.of_N (Byte.to_N b).

(** [len(data)] as a Python integer. *)
Definition len {A} (l : list A) : Z := Z.of_nat (List.length l).

(** The [n] little-endian bytes of [v] (format prefix [<]). *)
Fixpoint le_bytes (n : nat) (v : Z) : bytes :=
  match n with
  | O => []
  | S n' => byte_of_Z v :: le_bytes n' (v / 256)
  end.

(** The reverse reading, used by the directory reader below. *)
Fixpoint le_value (bs : bytes) : Z :=
  match bs with
  | [] => 0
  | b :: bs' => Z_of_byte b + 256 * le_value bs'
  end.

(** One unsigned field of [struct.pack]: [B] is [pack_uint 1], [H] is
    [pack_uint 2], [I] is [pack_uint 4]. A value outside the range of the
    field makes [struct.pack] raise [struct.error], here [None]. *)
Definition pack_uint (n : nat) (v : Z) : option bytes :=
  if (0 <=? v) && (v <? 2 ^ (8 * Z.of_nat n)) then Some (le_bytes n v) else None.

(** [struct.pack('<HHH', a, b, c)] *)
Definition pack_HHH (a b c : Z) : option bytes :=
  a' ← pack_uint 2 a; b' ← pack_uint 2 b; c' ← pack_uint 2 c;
  Some (a' ++ b' ++ c').

(** [struct.pack('<BBBBHHII', ...)] *)
Definition pack_BBBBHHII (w_byte h_byte color_count reserved planes bit_count
                          data_len offset : Z) : option bytes :=
  f1 ← pack_uint 1 w_byte; f2 ← pack_uint 1 h_byte;
  f3 ← pack_uint 1 color_count; f4 ← pack_uint 1 reserved;
  f5 ← pack_uint 2 planes; f6 ← pack_uint 2 bit_count;
  f7 ← pack_uint 4 data_len; f8 ← pack_uint 4 offset;
  Some (f1 ++ f2 ++ f3 ++ f4 ++ f5 ++ f6 ++ f7 ++ f8).

(** ** The builtin [sorted]

    [sorted(entries, key=...)] is Python's builtin: ascending and
    guaranteed stable. It is modelled by a stable insertion sort; an
    element goes in front of the first element whose key is not smaller,
    hence in front of the equal keys that came after it in the input. *)

Fixpoint insert_by {A} (leb : A -> A -> bool) (x : A) (l : list A) : list A :=
  match l with
  | [] => [x]
  | y :: l' => if leb x y then x :: l else y :: insert_by leb x l'
  end.

Fixpoint sort_by {A} (leb : A -> A -> bool) (l : list A) : list A :=
  match l with
  | [] => []
  | x :: l' => insert_by leb x (sort_by leb l')
  end.

(** [sorted(l, key=key)] with integer keys. *)
Definition sorted {A} (key : A -> Z) (l : list A) : list A :=
  sort_by (fun x y => key x <=? key y) l.

(** ** Serialization (lines 108-131 of [create_ico_for_group]) *)

(** An element of [entries]: the tuple [(size, data)]. *)
Abbreviation entry := (Z * bytes)%type.

(** The loop [for size, data in entries] with its three accumulators.
    The result is [(dir_entries, image_data)] when no [struct.pack]
    raised. *)
Fixpoint dir_loop (entries : list entry) (dir_entries image_data : bytes)
                  (offset : Z) : option (bytes * bytes) :=
  match entries with
  | [] => Some (dir_entries, image_data)
  | (size, data) :: rest =>
      let w_byte := if size >=? 256 then 0 else size in
      let h_byte := if size >=? 256 then 0 else size in
      let color_count := 0 in
      let reserved := 0 in
      let planes := 0 in
      let bit_count := 32 in
      let data_len := len data in
      rec ← pack_BBBBHHII w_byte h_byte color_count reserved planes
                          bit_count data_len offset;
      dir_loop rest (dir_entries ++ rec) (image_data ++ data)
               (offset + data_len)
  end.

(** From the sort to the three byte strings that are written:
    [(entries, header, dir_entries, image_data)], [entries] being the
    sorted list. [None] stands for [struct.error]. *)
Definition build_ico (entries : list entry)
  : option (list entry * bytes * bytes * bytes) :=
  let entries := sorted fst entries in
  let count := len entries in
  header ← pack_HHH 0 1 count;
  let offset := 6 + 16 * count in
  '(dir_entries, image_data) ← dir_loop entries [] [] offset;
  Some (entries, header, dir_entries, image_data).

(** The bytes of the container file, in the order they are written. *)
Definition ico_bytes (entries : list entry) : option bytes :=
  '(_, header, dir_entries, image_data) ← build_ico entries;
  Some (header ++ dir_entries ++ image_data).

(** ** The layout the specification describes

    These definitions follow the specification's section on the binary
    format, not the code; the theorems compare them with what
    [build_ico] produces. *)

(** The width and height byte: the pixel size, or 0 to mean 256. *)
Definition spec_size_byte (size : Z) : Z := if size =? 256 then 0 else size.

(** Reading that byte back. *)
Definition spec_read_size (b : Z) : Z := if b =? 0 then 256 else b.

(** The 6-byte header. *)
Definition spec_header (count : Z) : bytes :=
  le_bytes 2 0 ++ le_bytes 2 1 ++ le_bytes 2 count.

(** One 16-byte directory record. *)
Definition spec_record (w_byte h_byte data_size data_offset : Z) : bytes :=
  le_bytes 1 w_byte ++ le_bytes 1 h_byte ++ le_bytes 1 0 ++ le_bytes 1 0 ++
  le_bytes 2 0 ++ le_bytes 2 32 ++ le_bytes 4 data_size ++ le_bytes 4 data_offset.

(** The directory of [entries], the first payload being at [offset]:
    every record carries the running sum of the payloads before it. *)
Fixpoint spec_directory (wb : Z -> Z) (offset : Z) (entries : list entry) : bytes :=
  match entries with
  | [] => []
  | (size, data) :: rest =>
      spec_record (wb size) (wb size) (len data) offset ++
      spec_directory wb (offset + len data) rest
  end.

(** The payload region. *)
Definition spec_payload (entries : list entry) : bytes :=
  concat (map snd entries).

(** [bs[off : off + n]] *)
Definition slice (bs : bytes) (off n : Z) : bytes :=
  take (Z.to_nat n) (drop (Z.to_nat off) bs).

(** Reading record [i] of a container and the payload it points to. *)
Definition read_record (file : bytes) (i : nat) : option entry :=
  match slice file (6 + 16 * Z.of_nat i) 16 with
  | [w; h; _; _; _; _; _; _; s0; s1; s2; s3; o0; o1; o2; o3] =>
      let data_size := le_value [s0; s1; s2; s3] in
      let data_offset := le_value [o0; o1; o2; o3] in
      if data_offset + data_size <=? len file
      then Some (spec_read_size (Z_of_byte w), slice file data_offset data_size)
      else None
  | _ => None
  end.

(** Reading a whole container back: the entry count of the header, then
    every record with its payload. *)
Definition read_ico (file : bytes) : option (Z * list entry) :=
  match file with
  | r0 :: r1 :: t0 :: t1 :: c0 :: c1 :: _ =>
      if (le_value [r0; r1] =? 0) && (le_value [t0; t1] =? 1) then
        let count := le_value [c0; c1] in
        es ← mapM (read_record file) (seq 0 (Z.to_nat count));
        Some (count, es)
      else None
  | _ => None
  end.

(** ** Paths ([pathlib]) *)

(** A path is the list of its components, the outermost first. *)
Abbreviation path := (list string).

(** [p.name] *)
Definition name (p : path) : string := List.last p "".

(** [p.parent] *)
Definition parent (p : path) : path := removelast p.

(** [p / s] for a single component [s]. *)
Definition joinpath (p : path) (s : string) : path := p ++ [s].

(** [s.rfind(c)], [None] for -1. *)
Fixpoint rfind (c : ascii) (s : list ascii) : option nat :=
  match s with
  | [] => None
  | x :: r =>
      match rfind c r with
      | Some i => Some (S i)
      | None => if Ascii.eqb x c then Some O else None
      end
  end.

(** [p.stem]: the name up to its last dot, when that dot is neither the
    first nor the last character. *)
Definition stem (p : path) : list ascii :=
  let nm := list_ascii_of_string (name p) in
  match rfind "."%char nm with
  | Some i => if (0 <? i)%nat && (i <? List.length nm - 1)%nat then take i nm else nm
  | None => nm
  end.

(** [fnmatch(name, '*.png')] *)
Definition is_png_name (nm : string) : bool :=
  match rev (list_ascii_of_string nm) with
  | "g"%char :: "n"%char :: "p"%char :: "."%char :: _ => true
  | _ => false
  end.

(** The order of [Path] objects: component by component. *)
Fixpoint path_leb (p q : path) : bool :=
  match p, q with
  | [], _ => true
  | _ :: _, [] => false
  | a :: p', b :: q' =>
      match String.compare a b with
      | Lt => true
      | Gt => false
      | Eq => path_leb p' q'
      end
  end.

Fixpoint is_prefix (p q : path) : bool :=
  match p, q with
  | [], _ => true
  | _ :: _, [] => false
  | a :: p', b :: q' => String.eqb a b && is_prefix p' q'
  end.

(** ** The pattern [SIZE_RE]

    [re.compile(r'^(.*?)(?:[_@\-]?)(\d+)$')], matched with [match]. The
    lazy first group grows one character at a time, and never over a line
    feed; after it come an optional separator and a greedy run of digits
    that has to reach the end of the string, or the line feed that ends
    it. Digits are the ASCII ones: this is the pattern of the code on
    ASCII text; elsewhere Python's [\d] and [int] also take the other
    decimal digits of Unicode. *)

Definition code (c : ascii) : Z := Z.of_N (N_of_ascii c).

Definition is_digit (c : ascii) : bool := (48 <=? code c) && (code c <=? 57).

Definition is_sep (c : ascii) : bool :=
  Ascii.eqb c "_" || Ascii.eqb c "@" || Ascii.eqb c "-".

Definition is_newline (c : ascii) : bool := Ascii.eqb c "010".

(** [(\d+)$]: the longest run of digits, then the end. *)
Fixpoint digits_to_end (s : list ascii) : option (list ascii) :=
  match s with
  | [] => None
  | c :: r =>
      if is_digit c then
        match r with
        | [] => Some [c]
        | [nl] => if is_newline nl then Some [c] else
                    ds ← digits_to_end r; Some (c :: ds)
        | _ => ds ← digits_to_end r; Some (c :: ds)
        end
      else None
  end.

(** [(?:[_@\-]?)(\d+)$]: with the separator first, without it next. *)
Definition suffix_match (s : list ascii) : option (list ascii) :=
  match s with
  | c :: r =>
      if is_sep c then
        match digits_to_end r with
        | Some ds => Some ds
        | None => digits_to_end s
        end
      else digits_to_end s
  | [] => None
  end.

(** [SIZE_RE.match(stem)]: groups 1 and 2 of the match, [g1] being the
    part of the first group consumed so far. *)
Fixpoint SIZE_RE_from (g1 s : list ascii) : option (list ascii * list ascii) :=
  match suffix_match s with
  | Some ds => Some (g1, ds)
  | None =>
      match s with
      | [] => None
      | c :: r => if is_newline c then None else SIZE_RE_from (g1 ++ [c]) r
      end
  end.

Definition SIZE_RE_match (s : list ascii) : option (list ascii * list ascii) :=
  SIZE_RE_from [] s.

(** [int(text)] on a string of decimal digits; [None] is [ValueError]. *)
Definition int (text : list ascii) : option Z :=
  match text with
  | [] => None
  | _ =>
      if forallb is_digit text
      then Some (fold_left (fun acc c => 10 * acc + (code c - 48)) text 0)
      else None
  end.

(** ** The world: file system and console *)

Inductive node :=
| File (content : bytes)
| Dir.

Inductive exn :=
| FileNotFoundError (p : path)
| IsADirectoryError (p : path)
| FileExistsError (p : path)
| UnidentifiedImageError (p : path)
| OSError (msg : string)
| StructError
| SystemExit (msg : string).

(** [isinstance(e, Exception)]: [SystemExit] derives from
    [BaseException] only. *)
Definition is_Exception (e : exn) : bool :=
  match e with
  | SystemExit _ => false
  | _ => true
  end.

(** What the program prints. *)
Inductive diag :=
| MsgExists (ico_path : path)
| MsgNotSquare (nm : string) (w h : Z)
| MsgMismatch (nm : string) (w s : Z)
| MsgUnreadable (p : path) (e : exn)
| MsgNoUsable (base : string)
| MsgGenerated (ico_path : path) (sizes : list Z)
| MsgWriteFailed (ico_path : path) (e : exn)
| MsgNoPng
| MsgDone.

(** What the program does to the outside, in order. *)
Inductive event :=
| Print (d : diag)
| ImageOpen (p : path)
| ReadBytes (p : path)
| OpenWrite (p : path).

Record world := World {
  fs : gmap path node;
  events : list event;
}.

Definition set_fs (f : gmap path node) (w : world) : world :=
  World f (events w).

Definition emit (e : event) (w : world) : world :=
  World (fs w) (events w ++ [e]).

(** How writing a file goes wrong, if it does: [open] raises, or the
    error comes later and [n] bytes have reached the file by then. *)
Inductive wfault :=
| OpenFails (msg : string)
| WriteFails (n : nat) (msg : string).

(** ** State and exceptions *)

Inductive result (A : Type) :=
| Returned (a : A)
| Raised (e : exn).
Arguments Returned {A} a.
Arguments Raised {A} e.

Definition M (A : Type) : Type := world -> result A * world.

Definition ret {A} (a : A) : M A := fun w => (Returned a, w).

Definition bind {A B} (m : M A) (k : A -> M B) : M B :=
  fun w =>
    match m w with
    | (Returned a, w') => k a w'
    | (Raised e, w') => (Raised e, w')
    end.

Definition raise {A} (e : exn) : M A := fun w => (Raised e, w).

(** [try: m  except Exception as e: h e] *)
Definition try_except {A} (m : M A) (h : exn -> M A) : M A :=
  fun w =>
    match m w with
    | (Raised e, w') => if is_Exception e then h e w' else (Raised e, w')
    | r => r
    end.

(** An exception of [struct.pack]. *)
Definition lift_struct {A} (o : option A) : M A :=
  match o with
  | Some a => ret a
  | None => raise StructError
  end.

Notation "'do' x <- m ; k" := (bind m (fun x => k))
  (at level 10, x name, m at level 100, k at level 200).
Notation "'do' ' pat <- m ; k" := (bind m (fun x => match x with pat => k end))
  (at level 10, pat pattern, m at level 100, k at level 200).
Notation "m ;;; k" := (bind m (fun _ => k))
  (at level 100, k at level 200, right associativity).

(** [for x in l: body x] *)
Fixpoint for_each {A} (l : list A) (body : A -> M unit) : M unit :=
  match l with
  | [] => ret tt
  | x :: r => body x ;;; for_each r body
  end.

(** [print(...)] *)
Definition print (d : diag) : M unit := fun w => (Returned tt, emit (Print d) w).

(** [p.exists()] *)
Definition path_exists (p : path) : M bool :=
  fun w => (Returned (bool_decide (is_Some (fs w !! p))), w).

(** [p.is_dir()] and [p.is_file()] *)
Definition is_dir (w : world) (p : path) : bool :=
  match fs w !! p with
  | Some Dir => true
  | _ => false
  end.

Definition is_file (w : world) (p : path) : bool :=
  match fs w !! p with
  | Some (File _) => true
  | _ => false
  end.

(** [p.mkdir(parents=True, exist_ok=True)]: nothing happens when [p] is a
    directory, [FileExistsError] when it is a file, and an absent [p] is
    created. Ancestors are not tracked by the flat map of the file
    system: this is the call of the code when [p] is there or its parent
    is; otherwise the code also creates the ancestors that are missing,
    or raises when one of them is a regular file. *)
Definition mkdir (p : path) : M unit :=
  fun w =>
    match fs w !! p with
    | Some Dir => (Returned tt, w)
    | Some (File _) => (Raised (FileExistsError p), w)
    | None => (Returned tt, set_fs (<[p := Dir]> (fs w)) w)
    end.

(** [p.read_bytes()] *)
Definition read_bytes (p : path) : M bytes :=
  fun w =>
    let w := emit (ReadBytes p) w in
    match fs w !! p with
    | Some (File data) => (Returned data, w)
    | Some Dir => (Raised (IsADirectoryError p), w)
    | None => (Raised (FileNotFoundError p), w)
    end.

(** ** The tag parser and grouper *)

(** The value of [groups]: a [defaultdict(list)], kept in insertion order
    as Python dictionaries are. *)
Abbreviation groups_t := (list (string * list (path * Z))).

(** [groups[k].append(v)] *)
Fixpoint groups_append (groups : groups_t) (k : string) (v : path * Z) : groups_t :=
  match groups with
  | [] => [(k, [v])]
  | (k', l) :: r =>
      if String.eqb k' k then (k', l ++ [v]) :: r
      else (k', l) :: groups_append r k v
  end.

(** [groups.get(k)] *)
Fixpoint groups_get (groups : groups_t) (k : string) : option (list (path * Z)) :=
  match groups with
  | [] => None
  | (k', l) :: r => if String.eqb k' k then Some l else groups_get r k
  end.

(** [sorted(dirpath.rglob('*.png'))]: every path below [dirpath] whose
    name ends in [.png], in the order of paths. *)
Definition rglob_png (w : world) (dirpath : path) : list path :=
  sort_by path_leb
    (List.filter (fun p => is_prefix dirpath p
                      && (List.length dirpath <? List.length p)%nat
                      && is_png_name (name p))
            (map fst (map_to_list (fs w)))).

(** [p.parent.name or '.'] *)
Definition folder_name (p : path) : string :=
  if String.eqb (name (parent p)) "" then "." else name (parent p).

(** The body of the loop of [group_pngs]. *)
Definition group_step (w : world) (groups : groups_t) (p : path) : groups_t :=
  if negb (is_file w p) then groups
  else
    let stem := stem p in
    match SIZE_RE_match stem with
    | None => groups
    | Some (_, g2) =>
        match int g2 with
        | None => groups
        | Some size =>
            let folder_name := folder_name p in
            groups_append groups folder_name (p, size)
        end
    end.

Definition group_pngs (w : world) (dirpath : path) : groups_t :=
  fold_left (group_step w) (rglob_png w dirpath) [].

(** ** The container synthesizer *)

Section Synthesizer.

(** The image codec: the pixel size [(w, h)] that [Image.open] reads out
    of the bytes of a file, or [None] when it cannot identify them. *)
Variable image_size : bytes -> option (Z * Z).

(** The faults of the disk under a path that is written. *)
Variable disk_fault : path -> option wfault.

(** [with Image.open(p) as im: w, h = im.size] *)
Definition image_open (p : path) : M (Z * Z) :=
  fun w =>
    let w := emit (ImageOpen p) w in
    match fs w !! p with
    | Some (File data) =>
        match image_size data with
        | Some wh => (Returned wh, w)
        | None => (Raised (UnidentifiedImageError p), w)
        end
    | Some Dir => (Raised (IsADirectoryError p), w)
    | None => (Raised (FileNotFoundError p), w)
    end.

(** [with p.open('wb') as f: f.write(c1); f.write(c2); ...]. Opening
    truncates the file; when an error comes after that, the file holds
    the bytes that reached it. *)
Definition write_chunks (p : path) (chunks : list bytes) : M unit :=
  fun w =>
    let w := emit (OpenWrite p) w in
    match fs w !! p with
    | Some Dir => (Raised (IsADirectoryError p), w)
    | _ =>
        match disk_fault p with
        | Some (OpenFails msg) => (Raised (OSError msg), w)
        | Some (WriteFails n msg) =>
            (Raised (OSError msg),
             set_fs (<[p := File (take n (concat chunks))]> (fs w)) w)
        | None =>
            (Returned tt, set_fs (<[p := File (concat chunks)]> (fs w)) w)
        end
    end.

(** The body of the loop over [items]; the result is the new value of
    [entries]. *)
Definition validate_item (p : path) (s : Z) (entries : list entry) : M (list entry) :=
  if s =? 0 then ret entries
  else
    try_except
      (do '(w, h) <- image_open p;
       if negb (w =? h) then
         print (MsgNotSquare (name p) w h) ;;; ret entries
       else if negb (w =? s) then
         print (MsgMismatch (name p) w s) ;;; ret entries
       else
         do data <- read_bytes p;
         ret (entries ++ [(s, data)]))
      (fun e => print (MsgUnreadable p e) ;;; ret entries).

Fixpoint validate_loop (items : list (path * Z)) (entries : list entry)
  : M (list entry) :=
  match items with
  | [] => ret entries
  | (p, s) :: rest =>
      do entries <- validate_item p s entries;
      validate_loop rest entries
  end.

Definition create_ico_for_group (base : string) (items : list (path * Z))
           (out_dir : path) (overwrite : bool) : M unit :=
  mkdir out_dir ;;;
  let ico_path := joinpath out_dir (base +:+ ".ico") in
  do ex <- path_exists ico_path;
  if ex && negb overwrite then
    print (MsgExists ico_path)
  else
    do entries <- validate_loop items [];
    match entries with
    | [] => print (MsgNoUsable base)
    | _ =>
        do '(entries, header, dir_entries, image_data) <-
           lift_struct (build_ico entries);
        try_except
          (write_chunks ico_path [header; dir_entries; image_data] ;;;
           print (MsgGenerated ico_path (map fst entries)))
          (fun e => print (MsgWriteFailed ico_path e))
    end.

(** The loop of [main] over [groups.items()]. *)
Definition main_loop (groups : groups_t) (outdir : path) (overwrite : bool) : M unit :=
  for_each groups
    (fun '(base, items) => create_ico_for_group base items outdir overwrite).

(** [main], from the parsed arguments on; [dir] and [out] are resolved
    paths. *)
Definition main (dir out : path) (overwrite : bool) : M unit :=
  fun w =>
    let dirpath := dir in
    let outdir := out in
    if negb (is_dir w dirpath) then (Raised (SystemExit "no such directory"), w)
    else
      let groups := group_pngs w dirpath in
      match groups with
      | [] => print MsgNoPng w
      | _ => (main_loop groups outdir overwrite ;;; print MsgDone) w
      end.

End Synthesizer.

(** ** Descriptions used by the statements *)

(** The value of [w_byte] and [h_byte] in the loop of the serializer. *)
Definition size_byte (size : Z) : Z := if size >=? 256 then 0 else size.

(** The order of the keys of [sorted]. *)
Definition key_le {A} (key : A -> Z) (x y : A) : Prop := key x <= key y.

(** What reading the directory back gives for an entry. *)
Definition read_back (e : entry) : entry := (spec_read_size (size_byte e.1), e.2).

(** The ranges within which no [struct.pack] of the loop raises, the
    first payload being at [offset]. *)
Fixpoint fits (offset : Z) (entries : list entry) : Prop :=
  match entries with
  | [] => True
  | (size, data) :: rest =>
      0 <= size /\ len data < 2 ^ 32 /\ 0 <= offset < 2 ^ 32 /\
      fits (offset + len data) rest
  end.



(** What the parser makes of one scanned path: its group key and its
    candidate, if it has one. *)
Definition candidate (w : world) (p : path) : option (string * (path * Z)) :=
  if is_file w p then
    match SIZE_RE_match (stem p) with
    | Some (_, g2) =>
        match int g2 with
        | Some size => Some (folder_name p, (p, size))
        | None => None
        end
    | None => None
    end
  else None.

(** The candidates of key [k] among the scanned paths, in scan order. *)
Definition members (w : world) (k : string) (found : list path) : list (path * Z) :=
  omap (fun p =>
          match candidate w p with
          | Some (k', v) => if String.eqb k' k then Some v else None
          | None => None
          end) found.

(** The four ways the validation of a candidate ends. *)
Inductive verdict :=
| Accepted (data : bytes)
| NotSquare (w h : Z)
| Mismatch (w : Z)
| Unreadable (e : exn).

Section Verdict.

Variable image_size : bytes -> option (Z * Z).

(** The checks of the specification on candidate [(p, s)] in the file
    system [f]: the source is read and probed, the width is compared
    with the height and then with the declared size. *)
Definition check (f : gmap path node) (p : path) (s : Z) : verdict :=
  match f !! p with
  | Some (File data) =>
      match image_size data with
      | Some (pw, ph) =>
          if negb (pw =? ph) then NotSquare pw ph
          else if negb (pw =? s) then Mismatch pw
          else Accepted data
      | None => Unreadable (UnidentifiedImageError p)
      end
  | Some Dir => Unreadable (IsADirectoryError p)
  | None => Unreadable (FileNotFoundError p)
  end.

(** What a candidate that is examined leaves on the trace. *)
Definition verdict_events (p : path) (s : Z) (v : verdict) : list event :=
  match v with
  | Accepted _ => [ImageOpen p; ReadBytes p]
  | NotSquare pw ph => [ImageOpen p; Print (MsgNotSquare (name p) pw ph)]
  | Mismatch pw => [ImageOpen p; Print (MsgMismatch (name p) pw s)]
  | Unreadable e => [ImageOpen p; Print (MsgUnreadable p e)]
  end.

(** The entry it produces. *)
Definition verdict_entry (s : Z) (v : verdict) : list entry :=
  match v with
  | Accepted data => [(s, data)]
  | _ => []
  end.

(** The same for a candidate of the group: one whose size is 0 is not
    examined at all. *)
Definition item_events (f : gmap path node) (it : path * Z) : list event :=
  if it.2 =? 0 then [] else verdict_events it.1 it.2 (check f it.1 it.2).

Definition item_entry (f : gmap path node) (it : path * Z) : list entry :=
  if it.2 =? 0 then [] else verdict_entry it.2 (check f it.1 it.2).

End Verdict.

(** ** Sample data *)

(** A codec for the examples: the first two bytes of a file are its
    width and its height. *)
Definition sample_codec (b : bytes) : option (Z * Z) :=
  match b with
  | w :: h :: _ => Some (Z_of_byte w, Z_of_byte h)
  | _ => None
  end.

Definition no_fault (p : path) : option wfault := None.

Definition full_disk (p : path) : option wfault := Some (WriteFails 3 "ENOSPC").

Definition png16 : bytes := [x10; x10; xaa].
Definition png30 : bytes := [x1e; x1e; xbb].
Definition png64a : bytes := [x40; x40; x01].
Definition png64b : bytes := [x40; x40; x02].

(** [a_16.png] is 16x16, [a_32.png] is 30x30, and [x_0.png] declares the
    size 0. *)
Definition sample_world : world :=
  World (list_to_map
           [ (["r"], Dir); (["r"; "a"], Dir); (["r"; "z"], Dir);
             (["r"; "a"; "a_16.png"], File png16);
             (["r"; "a"; "a_32.png"], File png30);
             (["r"; "a"; "notes.png"], File png16);
             (["r"; "z"; "x_0.png"], File png16) ]) [].

(** Two files of one group that declare the size 64. *)
Definition twin_world : world :=
  World (list_to_map
           [ (["r"], Dir); (["r"; "a"], Dir);
             (["r"; "a"; "a_64.png"], File png64a);
             (["r"; "a"; "a-64.png"], File png64b) ]) [].

(** The output of group [a] is there already. *)
Definition done_world : world :=
  World (list_to_map
           [ (["r"], Dir); (["r"; "a"], Dir); (["o"], Dir);
             (["r"; "a"; "a_16.png"], File png16);
             (["o"; "a.ico"], File [x00; x00; x01; x00]) ]) [].


Definition a16 : path := ["r"; "a"; "a_16.png"].
Definition a32 : path := ["r"; "a"; "a_32.png"].
Definition x0 : path := ["r"; "z"; "x_0.png"].
Definition a64m : path := ["r"; "a"; "a-64.png"].
Definition a64u : path := ["r"; "a"; "a_64.png"].
Definition a_ico : path := ["o"; "a.ico"].

(** The container of the two files of [twin_world]. *)
Definition twin_ico : bytes :=
  spec_header 2 ++
  spec_directory size_byte 38 [(64, png64b); (64, png64a)] ++
  png64b ++ png64a.

(** ** The rest of [pngs_to_ico.py] *)

(** A [PIL] image, as far as cropping goes: its size and its pixels. *)
Record image (A : Type) := Image {
  width : Z;
  height : Z;
  pixel : Z -> Z -> A;
}.
Arguments Image {A} width height pixel.
Arguments width {A} i.
Arguments height {A} i.
Arguments pixel {A} i x y.

(** [img.crop((x0, y0, x1, y1))], the box being (left, upper, right,
    lower). *)
Definition crop {A} (img : image A) (box : Z * Z * Z * Z) : image A :=
  let '(x0, y0, x1, y1) := box in
  Image (x1 - x0) (y1 - y0) (fun x y => pixel img (x + x0) (y + y0)).

Definition center_crop_to_square {A} (img : image A) : image A :=
  let w := width img in
  let h := height img in
  if w =? h then img
  else
    let m := Z.min w h in
    let left_ := (w - m) / 2 in
    let top := (h - m) / 2 in
    crop img (left_, top, left_ + m, top + m).

(** [sizes_from_group]: the set comprehension keeps the sizes that are
    true and positive, [sorted] lists the set in ascending order. *)
Definition sizes_from_group (items : list (path * Z)) : list Z :=
  let uniq :=
    sorted (fun x => x)
      (elements (list_to_set (C := gset Z)
         (map snd (List.filter (fun it => negb (it.2 =? 0) && (it.2 >? 0)) items)))) in
  uniq.

(** ** [resize_pngs.py] *)

(** [list(range(start, stop, step))] for a step other than 0. *)
Definition py_range (start stop step : Z) : list Z :=
  let n :=
    if (0 <? step) && (start <? stop) then 1 + (stop - 1 - start) / step
    else if (step <? 0) && (stop <? start) then 1 + (start - 1 - stop) / (- step)
    else 0 in
  map (fun i => start + step * Z.of_nat i) (seq 0 (Z.to_nat n)).

Definition DEFAULT_SIZE_LARGE : list Z := py_range 256 63 (-16).
Definition DEFAULT_SIZE_SMALL : list Z := py_range 60 15 (-4).

(** [c in size] for a character [c]. *)
Definition char_in (c : ascii) (size : string) : bool :=
  existsb (Ascii.eqb c) (list_ascii_of_string size).

(** [parse_sizes]: the argument is [None] when the option is absent;
    the result is [None] when the function falls off its end. *)
Definition parse_sizes (size : option string) : option (list Z) :=
  match size with
  | None | Some "" => Some (DEFAULT_SIZE_LARGE ++ DEFAULT_SIZE_SMALL)
  | Some size =>
      if char_in "l" size then Some DEFAULT_SIZE_LARGE
      else if char_in "s" size then Some DEFAULT_SIZE_SMALL
      else None
  end.

(** [str(n)] for an integer, as in an f-string. *)
Definition py_str (n : Z) : string := NilZero.string_of_int (Z.to_int n).

(** [s.lower()] on ASCII. *)
Definition lower_char (c : ascii) : ascii :=
  if (65 <=? code c) && (code c <=? 90)
  then ascii_of_N (N_of_ascii c + 32)
  else c.

(** [p.suffix]: the name from its last dot on, when that dot is neither
    the first nor the last character. *)
Definition path_suffix (p : path) : list ascii :=
  let nm := list_ascii_of_string (name p) in
  match rfind "."%char nm with
  | Some i => if (0 <? i)%nat && (i <? List.length nm - 1)%nat then drop i nm else []
  | None => []
  end.

(** [s.split('/')] *)
Fixpoint split_slash (cur s : list ascii) : list (list ascii) :=
  match s with
  | [] => [cur]
  | c :: r =>
      if Ascii.eqb c "/" then cur :: split_slash [] r
      else split_slash (cur ++ [c]) r
  end.

(** The components of a string that is joined to a path: empty ones and
    single dots are dropped. *)
Definition path_parts (s : string) : list string :=
  map string_of_list_ascii
      (List.filter (fun x => match x with
                             | [] => false
                             | [c] => negb (Ascii.eqb c ".")
                             | _ => true
                             end)
                   (split_slash [] (list_ascii_of_string s))).

(** [p / s] for any string: a string that starts with a slash replaces
    [p], the root being the component [/]. *)
Definition path_div (p : path) (s : string) : path :=
  match s with
  | String c _ =>
      if Ascii.eqb c "/" then "/" :: path_parts s else p ++ path_parts s
  | "" => p ++ path_parts s
  end.

(** The parsed arguments. *)
Record args := Args {
  arg_source : path;
  arg_out : path;
  arg_sizes : option string;
  arg_prefix : string;
  arg_suffix : string;
  arg_overwrite : bool;
}.

Inductive rexn :=
| RSystemExit (msg : string)
| RFileExistsError (p : path)
| RIsADirectoryError (p : path)
| RUnidentifiedImageError (p : path)
| ROSError (msg : string)
| RTypeError.

(** What [resize_pngs.py] prints. *)
Inductive rmsg :=
| WarnNot1024 (w h : Z)
| MsgBadSize (sz : Z)
| MsgTargetExists (target : path)
| MsgResized (target : path)
| MsgResizeDone.

Inductive revent :=
| RPrint (m : rmsg)
| ROpen (p : path)
| RSave (p : path).

Record rworld := RWorld {
  rfs : gmap path node;
  rlog : list revent;
}.

Definition rset_fs (f : gmap path node) (w : rworld) : rworld :=
  RWorld f (rlog w).

Definition remit (e : revent) (w : rworld) : rworld :=
  RWorld (rfs w) (rlog w ++ [e]).

Inductive outcome (A : Type) :=
| Done (a : A)
| Failed (e : rexn).
Arguments Done {A} a.
Arguments Failed {A} e.

(** In what state a [save] that raises leaves its target. *)
Inductive save_left :=
| LeftUntouched
| LeftRemoved
| LeftPartial (b : bytes).

(** [f"{prefix}{base_name}_{sz}{suffix}.png"] *)
Definition target_name (a : args) (base_name : string) (sz : Z) : string :=
  arg_prefix a +:+ base_name +:+ "_" +:+ py_str sz +:+ arg_suffix a +:+ ".png".

(** [out_dir / f"..."] *)
Definition target_path (a : args) (base_name : string) (sz : Z) : path :=
  path_div (arg_out a) (target_name a base_name sz).

Section Resize.

(** The codec: the pixel size that [Image.open] reads, whether
    [im.load()] succeeds, and the bytes of the PNG file that the image,
    converted to RGBA when it has no alpha, resized to [sz] by [sz] with
    the Lanczos filter and saved with [optimize], consists of. *)
Variable image_size : bytes -> option (Z * Z).
Variable image_loads : bytes -> bool.
Variable lanczos_png : bytes -> Z -> bytes.

(** The faults of the disk under a path that is saved to. *)
Variable save_fault : path -> option (save_left * string).

(** [resized.save(target_path, ...)] *)
Definition save_png (target : path) (content : bytes) (w : rworld)
  : outcome unit * rworld :=
  let w := remit (RSave target) w in
  match rfs w !! target with
  | Some Dir => (Failed (RIsADirectoryError target), w)
  | _ =>
      match save_fault target with
      | None => (Done tt, rset_fs (<[target := File content]> (rfs w)) w)
      | Some (LeftUntouched, msg) => (Failed (ROSError msg), w)
      | Some (LeftRemoved, msg) =>
          (Failed (ROSError msg), rset_fs (delete target (rfs w)) w)
      | Some (LeftPartial b, msg) =>
          (Failed (ROSError msg), rset_fs (<[target := File b]> (rfs w)) w)
      end
  end.

(** [ensure_square_1024], on the size of the image. *)
Definition ensure_square_1024 (size : Z * Z) (w : rworld) : outcome unit * rworld :=
  let '(iw, ih) := size in
  if negb (iw =? ih) then (Failed (RSystemExit "not square"), w)
  else if negb (iw =? 1024) then (Done tt, remit (RPrint (WarnNot1024 iw ih)) w)
  else (Done tt, w).

(** The loop [for sz in sizes] of [main], [data] being the loaded
    source. *)
Fixpoint resize_loop (a : args) (data : bytes) (base_name : string)
         (sizes : list Z) (w : rworld) : outcome unit * rworld :=
  match sizes with
  | [] => (Done tt, w)
  | sz :: rest =>
      if sz <=? 0 then
        resize_loop a data base_name rest (remit (RPrint (MsgBadSize sz)) w)
      else
        let target_path := target_path a base_name sz in
        if bool_decide (is_Some (rfs w !! target_path)) && negb (arg_overwrite a) then
          resize_loop a data base_name rest
                      (remit (RPrint (MsgTargetExists target_path)) w)
        else
          match save_png target_path (lanczos_png data sz) w with
          | (Done _, w') =>
              resize_loop a data base_name rest
                          (remit (RPrint (MsgResized target_path)) w')
          | (Failed e, w') => (Failed e, w')
          end
  end.

(** [main] of [resize_pngs.py], from the parsed arguments on. The
    output directory is made as by [mkdir] above, its ancestors not
    being looked at. *)
Definition resize_main (a : args) (w : rworld) : outcome unit * rworld :=
  let sizes := parse_sizes (arg_sizes a) in
  let src_path := arg_source a in
  match rfs w !! src_path with
  | Some (File data) =>
      if negb (String.eqb (string_of_list_ascii (map lower_char (path_suffix src_path)))
                          ".png")
      then (Failed (RSystemExit "png only"), w)
      else
        let out_dir := arg_out a in
        match rfs w !! out_dir with
        | Some (File _) => (Failed (RFileExistsError out_dir), w)
        | made =>
            let w := match made with
                     | None => rset_fs (<[out_dir := Dir]> (rfs w)) w
                     | _ => w
                     end in
            let w := remit (ROpen src_path) w in
            match image_size data with
            | None => (Failed (RUnidentifiedImageError src_path), w)
            | Some size =>
                if negb (image_loads data) then (Failed (ROSError "load"), w)
                else
                  match ensure_square_1024 size w with
                  | (Failed e, w) => (Failed e, w)
                  | (Done _, w) =>
                      let base_name := string_of_list_ascii (stem src_path) in
                      match sizes with
                      | None => (Failed RTypeError, w)
                      | Some sizes =>
                          match resize_loop a data base_name sizes w with
                          | (Failed e, w) => (Failed e, w)
                          | (Done _, w) =>
                              (Done tt, remit (RPrint MsgResizeDone) w)
                          end
                      end
                  end
            end
        end
  | _ => (Failed (RSystemExit "no such file"), w)
  end.

End Resize.

(** ** Sample data for [resize_pngs.py] *)

(** A resizer for the examples, in step with [sample_codec]: the width
    and the height of the result, then the source. *)
Definition sample_lanczos (data : bytes) (sz : Z) : bytes :=
  byte_of_Z sz :: byte_of_Z sz :: data.

Definition always_loads (data : bytes) : bool := true.

Definition no_save_fault (p : path) : option (save_left * string) := None.

Definition icon_src : path := ["r"; "icon.png"].
Definition icon_data : bytes := [x40; x40; x07].

(** A 64 by 64 source, and an output directory in which the target of
    size 16 is there already. *)
Definition resize_world : rworld :=
  RWorld (list_to_map
            [ (["r"], Dir); (icon_src, File icon_data); (["o"], Dir);
              (["o"; "icon_16.png"], File [x01]) ]) [].

Definition args_small : args := Args icon_src ["o"] (Some "s") "" "" true.
Definition args_keep : args := Args icon_src ["o"] None "" "" false.
Definition args_list : args := Args icon_src ["o"] (Some "256,128,64") "" "" false.

(** ** Further descriptions and sample data *)

(** A text of ASCII characters only. On such a text the digits of the
    pattern and of [int] are the characters 0 to 9, as modelled here;
    beyond ASCII Python also takes the other decimal digits of Unicode
    for digits, which [is_digit] does not. *)
Definition is_ascii_text (s : list ascii) : bool :=
  forallb (fun c => code c <? 128) s.

(** The output directory is there, or it is absent and its parent
    directory is there: [mkdir(parents=True, exist_ok=True)] then
    creates at most the directory itself, and does not raise. *)
Definition out_ready (f : gmap path node) (out : path) : Prop :=
  f !! out = Some Dir \/ (f !! out = None /\ f !! parent out = Some Dir).

(** A codec for sizes above 255: the width and the height are the two
    16-bit little-endian numbers at the start of the file. *)
Definition wide_codec (b : bytes) : option (Z * Z) :=
  match b with
  | w0 :: w1 :: h0 :: h1 :: _ => Some (le_value [w0; w1], le_value [h0; h1])
  | _ => None
  end.

Definition png512a : bytes := [x00; x02; x00; x02; x01].
Definition png512b : bytes := [x00; x02; x00; x02; x02].
Definition a512m : path := ["r"; "a"; "a-512.png"].
Definition a512u : path := ["r"; "a"; "a_512.png"].

(** Two files of one group that declare the size 512 and are 512 by
    512. *)
Definition wide_world : world :=
  World (list_to_map
           [ (["r"], Dir); (["r"; "a"], Dir);
             (a512u, File png512a); (a512m, File png512b) ]) [].

(** The output directory is a regular file. *)
Definition blocked_world : world :=
  World (list_to_map
           [ (["r"], Dir); (["r"; "a"], Dir); (["o"], File [x00]);
             (["r"; "a"; "a_16.png"], File png16) ]) [].

(** A scan root that holds no file with a size suffix. *)
Definition plain_world : world :=
  World (list_to_map
           [ (["r"], Dir); (["r"; "notes.png"], File png16) ]) [].

Example pack_header_3 : pack_HHH 0 1 3 = Some [x00; x00; x01; x00; x03; x00].
Proof. reflexivity. Qed.

Example run_sample :
  main sample_codec no_fault ["r"] ["o"] false sample_world
  = (Returned tt,
     World (<[ ["o"; "a.ico"] :=
                File ([x00; x00; x01; x00; x01; x00] ++
                      [x10; x10; x00; x00; x00; x00; x20; x00;
                       x03; x00; x00; x00; x16; x00; x00; x00] ++ png16) ]>
              (<[ ["o"] := Dir ]> (fs sample_world)))
           [ ImageOpen ["r"; "a"; "a_16.png"]; ReadBytes ["r"; "a"; "a_16.png"];
             ImageOpen ["r"; "a"; "a_32.png"];
             Print (MsgMismatch "a_32.png" 30 32);
             OpenWrite ["o"; "a.ico"];
             Print (MsgGenerated ["o"; "a.ico"] [16]);
             Print (MsgNoUsable "z"); Print MsgDone ]).
Proof. vm_compute. reflexivity. Qed.

(** ** Bytes *)

(** Closes the range condition of a field of [struct.pack]. *)
Ltac pack_range :=
  repeat match goal with
         | |- context [2 ^ (8 * Z.of_nat ?n)] =>
             let v := eval vm_compute in (2 ^ (8 * Z.of_nat n)) in
             change (2 ^ (8 * Z.of_nat n)) with v
         | H : context [2 ^ (8 * Z.of_nat ?n)] |- _ =>
             let v := eval vm_compute in (2 ^ (8 * Z.of_nat n)) in
             change (2 ^ (8 * Z.of_nat n)) with v in H
         end;
  lia.

Lemma Z_of_byte_of_Z (z : Z) : Z_of_byte (byte_of_Z z) = z mod 256.
Proof.
  unfold Z_of_byte, byte_of_Z.
  pose proof (Z.mod_pos_bound z 256 ltac:(lia)) as Hb.
  destruct (Byte.of_N (Z.to_N (z mod 256))) as [b|] eqn:E.
  - apply Byte.to_of_N in E. rewrite E. lia.
  - apply Byte.of_N_None_iff in E. lia.
Qed.

Lemma Z_of_byte_range (b : byte) : 0 <= Z_of_byte b < 256.
Proof.
  unfold Z_of_byte. pose proof (Byte.to_N_bounded b). lia.
Qed.

Lemma length_le_bytes (n : nat) (v : Z) : List.length (le_bytes n v) = n.
Proof.
  revert v. induction n as [|n IH]; intros v; simpl; [reflexivity|].
  now rewrite IH.
Qed.

Lemma le_value_le_bytes (n : nat) (v : Z) :
  0 <= v < 2 ^ (8 * Z.of_nat n) -> le_value (le_bytes n v) = v.
Proof.
  revert v. induction n as [|n IH]; intros v Hv.
  - simpl in *. lia.
  - cbn [le_bytes le_value]. rewrite Z_of_byte_of_Z.
    replace (8 * Z.of_nat (S n)) with (8 + 8 * Z.of_nat n) in Hv by lia.
    rewrite Z.pow_add_r in Hv by lia. change (2 ^ 8) with 256 in Hv.
    rewrite IH.
    + pose proof (Z.div_mod v 256 ltac:(lia)). lia.
    + split; [apply Z.div_pos; lia|].
      apply Z.div_lt_upper_bound; lia.
Qed.

Lemma pack_uint_Some (n : nat) (v : Z) (bs : bytes) :
  pack_uint n v = Some bs <-> (0 <= v < 2 ^ (8 * Z.of_nat n)) /\ bs = le_bytes n v.
Proof.
  unfold pack_uint.
  destruct (0 <=? v) eqn:E1; destruct (v <? 2 ^ (8 * Z.of_nat n)) eqn:E2; simpl;
    split; intros H; try discriminate; try (destruct H; lia).
  - split; [lia | congruence].
  - destruct H as [_ ->]. reflexivity.
Qed.

Lemma pack_uint_fits (n : nat) (v : Z) :
  0 <= v < 2 ^ (8 * Z.of_nat n) -> pack_uint n v = Some (le_bytes n v).
Proof. intros H. apply pack_uint_Some. auto. Qed.

Lemma pack_uint_None (n : nat) (v : Z) :
  pack_uint n v = None <-> ~ (0 <= v < 2 ^ (8 * Z.of_nat n)).
Proof.
  unfold pack_uint.
  destruct (0 <=? v) eqn:E1; destruct (v <? 2 ^ (8 * Z.of_nat n)) eqn:E2; simpl;
    split; intros H; try discriminate; try reflexivity; try lia.
Qed.

(** ** The layout of the container *)

Lemma size_byte_range (size : Z) : 0 <= size -> 0 <= size_byte size < 256.
Proof. unfold size_byte. rewrite Z.geb_leb. destruct (256 <=? size) eqn:E; lia. Qed.

Lemma length_spec_record (a b c d : Z) : List.length (spec_record a b c d) = 16%nat.
Proof. reflexivity. Qed.

Lemma length_spec_directory (wb : Z -> Z) (off : Z) (es : list entry) :
  len (spec_directory wb off es) = 16 * len es.
Proof.
  unfold len. revert off. induction es as [|[s d] es IH]; intros off.
  - reflexivity.
  - cbn [spec_directory]. rewrite length_app, length_spec_record.
    specialize (IH (off + len d)). cbn [List.length]. lia.
Qed.

Lemma len_app {A} (a b : list A) : len (a ++ b) = len a + len b.
Proof. unfold len. rewrite length_app. lia. Qed.

Lemma len_nonneg {A} (a : list A) : 0 <= len a.
Proof. unfold len. lia. Qed.

Lemma spec_payload_app (a b : list entry) :
  spec_payload (a ++ b) = spec_payload a ++ spec_payload b.
Proof. unfold spec_payload. now rewrite map_app, concat_app. Qed.

Lemma spec_directory_app (wb : Z -> Z) (off : Z) (a b : list entry) :
  spec_directory wb off (a ++ b)
  = spec_directory wb off a ++ spec_directory wb (off + len (spec_payload a)) b.
Proof.
  revert off. induction a as [|[s d] a IH]; intros off.
  - cbn. now rewrite Z.add_0_r.
  - cbn [spec_directory app]. rewrite IH, <- app_assoc.
    change (spec_payload ((s, d) :: a)) with (d ++ spec_payload a).
    rewrite len_app, Z.add_assoc. reflexivity.
Qed.

(** The loop of the serializer writes the directory and the payload
    region of the specification, as long as every field fits. *)
Lemma dir_loop_fits (es : list entry) (d img : bytes) (off : Z) :
  fits off es ->
  dir_loop es d img off
  = Some (d ++ spec_directory size_byte off es, img ++ spec_payload es).
Proof.
  revert d img off. induction es as [|[s data] es IH]; intros d img off Hf.
  - cbn. now rewrite !app_nil_r.
  - destruct Hf as (Hs & Hl & Ho & Hf).
    cbn [dir_loop]. fold (size_byte s).
    pose proof (size_byte_range s Hs) as Hb.
    pose proof (len_nonneg data) as Hn.
    unfold pack_BBBBHHII.
    rewrite !pack_uint_fits by pack_range. cbn [mbind option_bind].
    rewrite IH by assumption.
    cbn [spec_directory]. unfold spec_record.
    change (spec_payload ((s, data) :: es)) with (data ++ spec_payload es).
    now rewrite <- !app_assoc.
Qed.

(** Conversely the loop raises as soon as one field does not fit. *)
Lemma dir_loop_Some_fits (es : list entry) (d img : bytes) (off : Z) (r : bytes * bytes) :
  dir_loop es d img off = Some r -> fits off es.
Proof.
  revert d img off. induction es as [|[s data] es IH]; intros d img off H.
  - exact I.
  - cbn [dir_loop] in H. fold (size_byte s) in H. unfold pack_BBBBHHII in H.
    destruct (pack_uint 1 (size_byte s)) as [f1|] eqn:E1; [|discriminate].
    cbn [mbind option_bind] in H.
    destruct (pack_uint 4 (len data)) as [f7|] eqn:E7; [|discriminate].
    cbn [mbind option_bind] in H.
    destruct (pack_uint 4 off) as [f8|] eqn:E8; [|discriminate].
    cbn [mbind option_bind] in H.
    apply pack_uint_Some in E1, E7, E8.
    destruct E1 as [E1 _], E7 as [E7 _], E8 as [E8 _].
    apply IH in H. cbn [fits]. repeat split; try pack_range; try assumption.
    unfold size_byte in E1. rewrite Z.geb_leb in E1.
    destruct (256 <=? s) eqn:E; lia.
Qed.

(** ** The sort *)

Section Sort.

Context {A : Type} (key : A -> Z).

Lemma insert_by_perm (leb : A -> A -> bool) (x : A) (l : list A) :
  Permutation (insert_by leb x l) (x :: l).
Proof.
  induction l as [|y l IH]; cbn; [reflexivity|].
  destruct (leb x y); [reflexivity|].
  rewrite IH. apply perm_swap.
Qed.

Lemma sort_by_perm (leb : A -> A -> bool) (l : list A) :
  Permutation (sort_by leb l) l.
Proof.
  induction l as [|x l IH]; cbn; [reflexivity|].
  rewrite insert_by_perm. now constructor.
Qed.

Lemma sorted_perm (l : list A) : Permutation (sorted key l) l.
Proof. apply sort_by_perm. Qed.

Lemma sorted_length (l : list A) : List.length (sorted key l) = List.length l.
Proof. apply Permutation_length, sorted_perm. Qed.

Lemma insert_key_sorted (x : A) (l : list A) :
  StronglySorted (key_le key) l ->
  StronglySorted (key_le key) (insert_by (fun a b => key a <=? key b) x l).
Proof.
  induction 1 as [|y l Hs IH Hy]; cbn.
  - repeat constructor.
  - destruct (key x <=? key y) eqn:E.
    + apply Z.leb_le in E. constructor; [now constructor|].
      constructor; [exact E|].
      eapply List.Forall_impl; [|exact Hy]. unfold key_le. intros; cbn in *; lia.
    + apply Z.leb_gt in E. constructor; [exact IH|].
      eapply Permutation_Forall; [symmetry; apply insert_by_perm|].
      constructor; [unfold key_le; lia | exact Hy].
Qed.

Lemma sorted_sorted (l : list A) : StronglySorted (key_le key) (sorted key l).
Proof.
  induction l as [|x l IH]; cbn; [constructor|].
  now apply insert_key_sorted.
Qed.

(** Stability: among the elements of one key nothing moves. *)
Lemma insert_key_stable (s : Z) (x : A) (l : list A) :
  List.filter (fun e => key e =? s) (insert_by (fun a b => key a <=? key b) x l)
  = List.filter (fun e => key e =? s) (x :: l).
Proof.
  induction l as [|y l IH]; [reflexivity|].
  cbn [insert_by]. destruct (key x <=? key y) eqn:E; [reflexivity|].
  apply Z.leb_gt in E. cbn [List.filter] in *. rewrite IH.
  destruct (key x =? s) eqn:Ex; [|reflexivity].
  apply Z.eqb_eq in Ex.
  destruct (key y =? s) eqn:Ey; [apply Z.eqb_eq in Ey; lia | reflexivity].
Qed.

Lemma sorted_stable (s : Z) (l : list A) :
  List.filter (fun e => key e =? s) (sorted key l)
  = List.filter (fun e => key e =? s) l.
Proof.
  induction l as [|x l IH]; [reflexivity|].
  change (sorted key (x :: l))
    with (insert_by (fun a b => key a <=? key b) x (sorted key l)).
  rewrite insert_key_stable. cbn [List.filter]. now rewrite IH.
Qed.

End Sort.

Lemma payload_len_perm (a b : list entry) :
  Permutation a b -> len (spec_payload a) = len (spec_payload b).
Proof.
  induction 1 as [|[s d] a b _ IH|[s d] [s' d'] a|a b c _ IH1 _ IH2].
  - reflexivity.
  - change (len (d ++ spec_payload a) = len (d ++ spec_payload b)).
    rewrite !len_app. lia.
  - change (len (d' ++ d ++ spec_payload a) = len (d ++ d' ++ spec_payload a)).
    rewrite !len_app. lia.
  - lia.
Qed.

Lemma sorted_payload_len (es : list entry) :
  len (spec_payload (sorted fst es)) = len (spec_payload es).
Proof. apply payload_len_perm, sorted_perm. Qed.

Lemma sorted_len {A} (key : A -> Z) (l : list A) : len (sorted key l) = len l.
Proof. unfold len. now rewrite sorted_length. Qed.

(** A sufficient condition for [fits]: positive sizes and a container
    shorter than 2^32 bytes. *)
Lemma fits_bound (off : Z) (es : list entry) :
  Forall (fun e => 0 < e.1) es ->
  0 <= off -> off + len (spec_payload es) < 2 ^ 32 ->
  fits off es.
Proof.
  revert off. induction es as [|[s d] es IH]; intros off Hp Ho Hb; [exact I|].
  change (spec_payload ((s, d) :: es)) with (d ++ spec_payload es) in Hb.
  rewrite len_app in Hb.
  pose proof (len_nonneg d). pose proof (len_nonneg (spec_payload es)).
  inversion Hp as [|? ? Hs Hp']; subst. cbn in Hs.
  cbn [fits]. repeat split; try lia.
  apply IH; [assumption | lia | lia].
Qed.

(** [build_ico] in terms of the layout of the specification. *)
Lemma build_ico_fits (entries : list entry) :
  len entries <= 65535 ->
  fits (6 + 16 * len entries) (sorted fst entries) ->
  build_ico entries
  = Some (sorted fst entries, spec_header (len entries),
          spec_directory size_byte (6 + 16 * len entries) (sorted fst entries),
          spec_payload (sorted fst entries)).
Proof.
  intros Hc Hf. unfold build_ico. rewrite sorted_len.
  pose proof (len_nonneg entries).
  unfold pack_HHH. rewrite !pack_uint_fits by pack_range.
  cbn [mbind option_bind]. rewrite dir_loop_fits by assumption.
  reflexivity.
Qed.

Lemma build_ico_Some (entries es : list entry) (header dir_entries image_data : bytes) :
  build_ico entries = Some (es, header, dir_entries, image_data) ->
  len entries <= 65535 /\ fits (6 + 16 * len entries) (sorted fst entries) /\
  es = sorted fst entries /\
  header = spec_header (len entries) /\
  dir_entries = spec_directory size_byte (6 + 16 * len entries) es /\
  image_data = spec_payload es.
Proof.
  intros H.
  assert (Hc : len entries <= 65535).
  { unfold build_ico in H. rewrite sorted_len in H. unfold pack_HHH in H.
    cbn [pack_uint] in H.
    destruct (pack_uint 2 (len entries)) as [c|] eqn:E.
    - apply pack_uint_Some in E. destruct E as [E _]. pack_range.
    - cbn in H. discriminate. }
  assert (Hf : fits (6 + 16 * len entries) (sorted fst entries)).
  { unfold build_ico in H. rewrite sorted_len in H.
    destruct (pack_HHH 0 1 (len entries)) as [h|]; [|discriminate].
    cbn [mbind option_bind] in H.
    destruct (dir_loop _ _ _ _) as [r|] eqn:E; [|discriminate].
    eapply dir_loop_Some_fits; eassumption. }
  rewrite build_ico_fits in H by assumption.
  injection H as <- <- <- <-. repeat split; auto.
Qed.

(** More than 65535 entries make [struct.pack] of the header raise. *)
Lemma build_ico_too_many (entries : list entry) :
  65535 < len entries -> build_ico entries = None.
Proof.
  intros H. unfold build_ico. rewrite sorted_len. unfold pack_HHH.
  replace (pack_uint 2 (len entries)) with (@None bytes).
  - reflexivity.
  - symmetry. apply pack_uint_None. pack_range.
Qed.

(** ** Reading a container back *)

Lemma fits_app (off : Z) (a b : list entry) :
  fits off (a ++ b) <-> fits off a /\ fits (off + len (spec_payload a)) b.
Proof.
  revert off. induction a as [|[s d] a IH]; intros off.
  - cbn. rewrite Z.add_0_r. tauto.
  - cbn [app fits]. rewrite IH.
    change (spec_payload ((s, d) :: a)) with (d ++ spec_payload a).
    rewrite len_app, Z.add_assoc. tauto.
Qed.

Lemma slice_mid (a b c : bytes) (off n : Z) :
  len a = off -> len b = n -> slice (a ++ b ++ c) off n = b.
Proof.
  unfold slice, len. intros <- <-. rewrite !Nat2Z.id.
  rewrite drop_app_length, take_app_length. reflexivity.
Qed.

Lemma le_value_2 (v : Z) :
  0 <= v < 2 ^ 16 -> le_value [byte_of_Z v; byte_of_Z (v / 256)] = v.
Proof. intros H. apply (le_value_le_bytes 2 v). pack_range. Qed.

Lemma le_value_4 (v : Z) :
  0 <= v < 2 ^ 32 ->
  le_value [byte_of_Z v; byte_of_Z (v / 256); byte_of_Z (v / 256 / 256);
            byte_of_Z (v / 256 / 256 / 256)] = v.
Proof. intros H. apply (le_value_le_bytes 4 v). pack_range. Qed.

Lemma len_spec_header (cnt : Z) : len (spec_header cnt) = 6.
Proof. reflexivity. Qed.

(** Where record [i] and its payload lie in a container laid out as the
    specification says. *)
Lemma record_slice (cnt : Z) (pre post : list entry) (s : Z) (data : bytes) :
  let es := pre ++ (s, data) :: post in
  let off := 6 + 16 * len es in
  slice (spec_header cnt ++ spec_directory size_byte off es ++ spec_payload es)
        (6 + 16 * Z.of_nat (List.length pre)) 16
  = spec_record (size_byte s) (size_byte s) (len data)
                (off + len (spec_payload pre)).
Proof.
  intros es off. subst es. rewrite spec_directory_app. cbn [spec_directory].
  rewrite <- !app_assoc, (app_assoc (spec_header cnt)).
  apply slice_mid; [|reflexivity].
  rewrite len_app, len_spec_header, length_spec_directory. reflexivity.
Qed.

Lemma payload_slice (cnt : Z) (pre post : list entry) (s : Z) (data : bytes) :
  let es := pre ++ (s, data) :: post in
  let off := 6 + 16 * len es in
  slice (spec_header cnt ++ spec_directory size_byte off es ++ spec_payload es)
        (off + len (spec_payload pre)) (len data)
  = data.
Proof.
  intros es off. subst es. rewrite spec_payload_app.
  change (spec_payload ((s, data) :: post)) with (data ++ spec_payload post).
  rewrite !app_assoc, <- (app_assoc _ data).
  apply slice_mid; [|reflexivity].
  rewrite !len_app, len_spec_header, length_spec_directory. subst off. lia.
Qed.

Lemma read_record_at (cnt : Z) (pre post : list entry) (s : Z) (data : bytes) :
  let es := pre ++ (s, data) :: post in
  let off := 6 + 16 * len es in
  fits off es ->
  read_record (spec_header cnt ++ spec_directory size_byte off es ++ spec_payload es)
              (List.length pre)
  = Some (spec_read_size (size_byte s), data).
Proof.
  intros es off Hf.
  pose proof (record_slice cnt pre post s data) as Hrec.
  pose proof (payload_slice cnt pre post s data) as Hdata.
  cbv zeta in Hrec, Hdata. fold es off in Hrec, Hdata.
  apply fits_app in Hf. destruct Hf as (_ & Hs & Hl & Ho & _).
  set (file := spec_header cnt ++ _) in *.
  pose proof (len_nonneg data) as Hd.
  assert (Hlen : off + len (spec_payload pre) + len data <= len file).
  { subst file es. rewrite spec_payload_app.
    change (spec_payload ((s, data) :: post)) with (data ++ spec_payload post).
    rewrite !len_app, len_spec_header, length_spec_directory.
    pose proof (len_nonneg (spec_payload post)). subst off. lia. }
  unfold read_record. rewrite Hrec. unfold spec_record. cbn [le_bytes app].
  rewrite !le_value_4 by lia.
  rewrite Z_of_byte_of_Z, Z.mod_small by (apply size_byte_range; lia).
  rewrite Hdata. apply Z.leb_le in Hlen. rewrite Hlen. reflexivity.
Qed.

Lemma read_ico_header (cnt : Z) (rest : bytes) :
  0 <= cnt <= 65535 ->
  read_ico (spec_header cnt ++ rest)
  = (es ← mapM (read_record (spec_header cnt ++ rest)) (seq 0 (Z.to_nat cnt));
     Some (cnt, es)).
Proof.
  intros Hc. unfold read_ico.
  generalize (read_record (spec_header cnt ++ rest)). intros f.
  unfold spec_header. cbn [le_bytes app].
  rewrite !le_value_2 by lia.
  reflexivity.
Qed.

Lemma read_ico_layout (es : list entry) :
  len es <= 65535 ->
  fits (6 + 16 * len es) es ->
  read_ico (spec_header (len es) ++
            spec_directory size_byte (6 + 16 * len es) es ++ spec_payload es)
  = Some (len es, map read_back es).
Proof.
  intros Hc Hf. pose proof (len_nonneg es).
  rewrite read_ico_header by lia.
  assert (Hm : mapM (read_record (spec_header (len es) ++
                 spec_directory size_byte (6 + 16 * len es) es ++ spec_payload es))
                 (seq 0 (Z.to_nat (len es))) = Some (map read_back es)).
  { apply mapM_Some. unfold len. rewrite Nat2Z.id.
    apply Forall2_same_length_lookup_2.
    - now rewrite length_seq, length_map.
    - intros i n e Hn He. apply lookup_seq in Hn. destruct Hn as [-> Hi].
      rewrite list_lookup_fmap in He.
      destruct (es !! i) as [[s d]|] eqn:Ei; [|discriminate].
      injection He as <-.
      pose proof (take_drop_middle _ _ _ Ei) as Hsplit.
      assert (Hpre : List.length (take i es) = i).
      { rewrite length_take. lia. }
      pose proof (read_record_at (len es) (take i es) (drop (S i) es) s d) as R.
      cbv zeta in R. rewrite Hsplit, Hpre in R. apply R. exact Hf. }
  rewrite Hm. reflexivity.
Qed.

Lemma read_back_small (e : entry) : 0 < e.1 <= 256 -> read_back e = e.
Proof.
  destruct e as [s d]. unfold read_back, spec_read_size, size_byte. cbn.
  intros Hs. rewrite Z.geb_leb.
  destruct (256 <=? s) eqn:E.
  - apply Z.leb_le in E. assert (s = 256) by lia. subst. reflexivity.
  - apply Z.leb_gt in E. destruct (s =? 0) eqn:E0; [lia | reflexivity].
Qed.

Lemma read_back_large (e : entry) : 256 <= e.1 -> read_back e = (256, e.2).
Proof.
  destruct e as [s d]. unfold read_back, spec_read_size, size_byte. cbn.
  intros Hs. rewrite Z.geb_leb.
  apply Z.leb_le in Hs. rewrite Hs. reflexivity.
Qed.

Lemma read_back_min (e : entry) : 0 < e.1 -> read_back e = (Z.min e.1 256, e.2).
Proof.
  intros H. destruct (Z.le_gt_cases e.1 256) as [Hle|Hgt].
  - rewrite read_back_small by lia. rewrite Z.min_l by lia. now destruct e.
  - rewrite read_back_large by lia. rewrite Z.min_r by lia. reflexivity.
Qed.

Lemma ico_bytes_Some (entries : list entry) (file : bytes) :
  ico_bytes entries = Some file ->
  len entries <= 65535 /\ fits (6 + 16 * len entries) (sorted fst entries) /\
  file = spec_header (len entries) ++
         spec_directory size_byte (6 + 16 * len entries) (sorted fst entries) ++
         spec_payload (sorted fst entries).
Proof.
  unfold ico_bytes. intros H.
  destruct (build_ico entries) as [[[[es h] d] img]|] eqn:E; [|discriminate].
  cbn in H. injection H as <-.
  apply build_ico_Some in E. destruct E as (Hc & Hf & -> & -> & -> & ->).
  auto.
Qed.

(** ** The container: claims about the layout *)

(** C1, amended. For every list of validated entries (positive sizes)
    with at most 65535 entries and a container shorter than 2^32 bytes,
    the serialized container is the 6-byte little-endian header
    (reserved 0, type 1, entry count), then one 16-byte record per entry
    in sorted order (colour count 0, reserved 0, planes 0, bit count 32,
    the exact payload length, and the offset 6 + 16 * count plus the
    lengths of the payloads before it), then the payloads themselves in
    the same order. Reading it back gives the entry count and every
    payload unchanged; the size read back is the entry's size when that
    is at most 256, and 256 for every larger size. *)
Theorem ico_layout_roundtrip (entries : list entry) :
  Forall (fun e => 0 < e.1) entries ->
  len entries <= 65535 ->
  6 + 16 * len entries + len (spec_payload entries) < 2 ^ 32 ->
  let es := sorted fst entries in
  let file := spec_header (len entries) ++
              spec_directory size_byte (6 + 16 * len entries) es ++
              spec_payload es in
  ico_bytes entries = Some file /\
  read_ico file = Some (len entries, map read_back es) /\
  map snd (map read_back es) = map snd es /\
  map fst (map read_back es) = map (fun e => Z.min e.1 256) es.
Proof.
  intros Hpos Hc Hb es file.
  assert (Hpos' : Forall (fun e => 0 < e.1) es).
  { eapply Permutation_Forall; [symmetry; apply sorted_perm | exact Hpos]. }
  assert (Hf : fits (6 + 16 * len entries) es).
  { pose proof (len_nonneg entries).
    apply fits_bound; [exact Hpos' | lia |].
    subst es. rewrite sorted_payload_len. lia. }
  split; [|split; [|split]].
  - unfold ico_bytes. rewrite build_ico_fits by assumption. reflexivity.
  - subst file. rewrite <- (sorted_len fst entries). fold es.
    apply read_ico_layout; subst es; rewrite sorted_len; assumption.
  - rewrite map_map. reflexivity.
  - rewrite map_map. apply map_ext_Forall.
    eapply List.Forall_impl; [|exact Hpos'].
    intros e He. cbn beta. now rewrite read_back_min.
Qed.

Lemma ico_layout_roundtrip_witness :
  ico_bytes [(32, [x0a; x0b]); (16, [x01])]
  = Some (spec_header 2 ++
          spec_directory size_byte 38 [(16, [x01]); (32, [x0a; x0b])] ++
          [x01; x0a; x0b]).
Proof.
  refine (proj1 (ico_layout_roundtrip [(32, [x0a; x0b]); (16, [x01])] _ _ _)).
  - repeat constructor.
  - vm_compute. discriminate.
  - vm_compute. reflexivity.
Defined.

(** The claim C1 as stated fails: an entry of size 512 is read back with
    the size 256, and a list of 65536 entries has no container at all. *)
Lemma roundtrip_loses_size_512 :
  (exists file, ico_bytes [(512, [x01])] = Some file /\
                read_ico file = Some (1, [(256, [x01])])) /\
  ico_bytes (repeat (16, [x01]) (Z.to_nat 65536)) = None.
Proof.
  split.
  - eexists. split; vm_compute; reflexivity.
  - unfold ico_bytes. rewrite build_ico_too_many; [reflexivity|].
    unfold len. rewrite repeat_length, Z2Nat.id; lia.
Qed.

Lemma sorted_map_key {A} (key : A -> Z) (l : list A) :
  StronglySorted (key_le key) l -> StronglySorted Z.le (map key l).
Proof.
  induction 1 as [|x l _ IH Hx]; cbn; constructor; [exact IH|].
  apply Forall_map. exact Hx.
Qed.

Lemma sorted_map_mono {A} (key : A -> Z) (f : A -> Z) (l : list A) :
  (forall x y, In x l -> In y l -> key x <= key y -> f x <= f y) ->
  StronglySorted (key_le key) l -> StronglySorted Z.le (map f l).
Proof.
  intros Hm Hs. induction Hs as [|x l _ IH Hx]; cbn; constructor.
  - apply IH. intros a b Ha Hb. apply Hm; now right.
  - apply Forall_map. rewrite List.Forall_forall in *. intros y Hy.
    apply Hm; [now left | now right | now apply Hx].
Qed.

(** C3. In a produced container the directory follows the sorted list of
    the entries: their sizes are non-decreasing, the list is a
    rearrangement of the validated entries, and the entries of one size
    stand in the order in which validation produced them. The sizes that
    the directory advertises (byte 0 read as 256) are non-decreasing as
    well. *)
Theorem directory_sorted_stable (entries es : list entry)
        (header dir_entries image_data : bytes) :
  build_ico entries = Some (es, header, dir_entries, image_data) ->
  dir_entries = spec_directory size_byte (6 + 16 * len es) es /\
  StronglySorted Z.le (map fst es) /\
  Permutation es entries /\
  (forall s, List.filter (fun e => e.1 =? s) es
             = List.filter (fun e => e.1 =? s) entries) /\
  (Forall (fun e => 0 < e.1) entries ->
   StronglySorted Z.le (map (fun e => (read_back e).1) es)).
Proof.
  intros H. apply build_ico_Some in H.
  destruct H as (_ & _ & -> & _ & -> & _).
  rewrite sorted_len.
  split; [reflexivity|]. split; [apply sorted_map_key, sorted_sorted|].
  split; [apply sorted_perm|]. split; [intros s; apply sorted_stable|].
  intros Hpos.
  assert (Hpos' : Forall (fun e : entry => 0 < e.1) (sorted fst entries)).
  { eapply Permutation_Forall; [symmetry; apply sorted_perm | exact Hpos]. }
  rewrite List.Forall_forall in Hpos'.
  apply (sorted_map_mono fst); [|apply sorted_sorted].
  intros x y Hx Hy Hle.
  rewrite !read_back_min by (apply Hpos'; assumption). cbn. lia.
Qed.

Lemma directory_sorted_stable_witness :
  StronglySorted Z.le (map fst [(16, [x01]); (32, [x0a]); (32, [x0b])]).
Proof.
  refine (proj1 (proj2 (directory_sorted_stable
            [(32, [x0a]); (16, [x01]); (32, [x0b])]
            [(16, [x01]); (32, [x0a]); (32, [x0b])] _ _ _ _))).
  vm_compute. reflexivity.
Defined.

(** C4, amended. In a produced container the width byte and the height
    byte of the record of an entry both hold the entry's size when the
    size is below 256, and 0 for every size from 256 on: up to 256 this
    is the rule of the specification (the size, or 0 to mean 256), above
    256 the byte is 0 as well. *)
Theorem size_bytes_written (entries : list entry) (file : bytes)
        (i : nat) (s : Z) (d : bytes) :
  ico_bytes entries = Some file ->
  sorted fst entries !! i = Some (s, d) ->
  map Z_of_byte (slice file (6 + 16 * Z.of_nat i) 2) = [size_byte s; size_byte s] /\
  (s < 256 -> size_byte s = s) /\
  (256 <= s -> size_byte s = 0) /\
  (s <= 256 -> size_byte s = spec_size_byte s).
Proof.
  intros H Hi. apply ico_bytes_Some in H. destruct H as (Hc & Hf & ->).
  set (es := sorted fst entries) in *.
  pose proof (take_drop_middle _ _ _ Hi) as Hsplit.
  assert (Hpre : List.length (take i es) = i).
  { rewrite length_take. apply lookup_lt_Some in Hi. lia. }
  pose proof (record_slice (len entries) (take i es) (drop (S i) es) s d) as R.
  cbv zeta in R. rewrite Hsplit, Hpre in R.
  subst es. rewrite sorted_len in R.
  rewrite <- Hsplit in Hf. apply fits_app in Hf. destruct Hf as (_ & Hs & _).
  split; [|split; [|split]].
  - unfold slice in *. change (Z.to_nat 2) with (Nat.min 2 (Z.to_nat 16)).
    rewrite <- take_take, R. cbn.
    rewrite Z_of_byte_of_Z, Z.mod_small by (apply size_byte_range; lia).
    reflexivity.
  - intros Hlt. unfold size_byte. rewrite Z.geb_leb.
    destruct (256 <=? s) eqn:E; [apply Z.leb_le in E; lia | reflexivity].
  - intros Hge. unfold size_byte. rewrite Z.geb_leb.
    apply Z.leb_le in Hge. now rewrite Hge.
  - intros Hle. unfold size_byte, spec_size_byte. rewrite Z.geb_leb.
    destruct (256 <=? s) eqn:E; destruct (s =? 256) eqn:E'; try reflexivity.
    + apply Z.leb_le in E. apply Z.eqb_neq in E'. lia.
    + apply Z.leb_gt in E. apply Z.eqb_eq in E'. lia.
Qed.

Lemma size_bytes_written_witness :
  map Z_of_byte (slice [x00; x00; x01; x00; x01; x00;
                        x10; x10; x00; x00; x00; x00; x20; x00;
                        x01; x00; x00; x00; x16; x00; x00; x00; x07] 6 2)
  = [size_byte 16; size_byte 16].
Proof.
  refine (proj1 (size_bytes_written [(16, [x07])] _ 0 16 [x07] _ _));
    vm_compute; reflexivity.
Defined.

(** The claim C4 as stated fails: 300 is a size of the data model other
    than 256, for which the rule of the specification gives the size
    itself, and the byte written for it is 0. *)
Lemma size_byte_of_300 :
  0 < 300 <= 65535 /\ 300 <> 256 /\ spec_size_byte 300 = 300 /\
  exists file, ico_bytes [(300, [x07])] = Some file /\
               map Z_of_byte (slice file 6 2) = [0; 0].
Proof.
  split; [lia|]. split; [lia|]. split; [reflexivity|].
  eexists. split; vm_compute; reflexivity.
Qed.

(** ** The tag parser *)





Lemma is_digit_not_newline (c : ascii) : is_digit c = true -> is_newline c = false.
Proof.
  unfold is_digit, is_newline. intros H.
  destruct (Ascii.eqb c "010") eqn:E; [|reflexivity].
  apply Ascii.eqb_eq in E. subst. discriminate.
Qed.


Lemma int_digits_acc (ds : list ascii) (acc : Z) :
  forallb is_digit ds = true -> 0 <= acc ->
  0 <= fold_left (fun a c => 10 * a + (code c - 48)) ds acc.
Proof.
  revert acc. induction ds as [|c ds IH]; intros acc Hd Ha; [exact Ha|].
  cbn in Hd. apply andb_prop in Hd. destruct Hd as [Hc Hd].
  cbn [fold_left]. apply IH; [assumption|].
  unfold is_digit in Hc. apply andb_prop in Hc. lia.
Qed.


Lemma int_nonneg (ds : list ascii) (z : Z) : int ds = Some z -> 0 <= z.
Proof.
  unfold int. destruct ds as [|c ds]; [discriminate|].
  destruct (forallb is_digit (c :: ds)) eqn:E; [|discriminate].
  intros [= <-]. apply (int_digits_acc (c :: ds) 0); [assumption | lia].
Qed.

Lemma groups_get_append_eq (g : groups_t) (k : string) (v : path * Z) :
  groups_get (groups_append g k v) k = Some (default [] (groups_get g k) ++ [v]).
Proof.
  induction g as [|[k' l] g IH]; cbn.
  - now rewrite String.eqb_refl.
  - destruct (String.eqb k' k) eqn:E; cbn; rewrite E; [reflexivity | exact IH].
Qed.

Lemma groups_get_append_ne (g : groups_t) (k k2 : string) (v : path * Z) :
  k <> k2 -> groups_get (groups_append g k v) k2 = groups_get g k2.
Proof.
  intros Hne. induction g as [|[k' l] g IH]; cbn.
  - apply String.eqb_neq in Hne. now rewrite Hne.
  - destruct (String.eqb k' k) eqn:E; cbn.
    + apply String.eqb_eq in E. subst k'.
      apply String.eqb_neq in Hne. now rewrite Hne.
    + destruct (String.eqb k' k2); [reflexivity | exact IH].
Qed.

Lemma group_step_candidate (w : world) (g : groups_t) (p : path) :
  group_step w g p
  = match candidate w p with
    | Some (k, v) => groups_append g k v
    | None => g
    end.
Proof.
  unfold group_step, candidate. destruct (is_file w p); cbn; [|reflexivity].
  destruct (SIZE_RE_match (stem p)) as [[g1 g2]|]; [|reflexivity].
  destruct (int g2); reflexivity.
Qed.

(** The group of key [k] after the loop: what it held before, then the
    candidates of that key in scan order, each one kept. *)
Lemma group_loop_get (w : world) (k : string) (found : list path) (g : groups_t) :
  groups_get (fold_left (group_step w) found g) k
  = match groups_get g k, members w k found with
    | None, [] => None
    | o, m => Some (default [] o ++ m)
    end.
Proof.
  revert g. induction found as [|p r IH]; intros g.
  - cbn. destruct (groups_get g k); cbn; [now rewrite app_nil_r | reflexivity].
  - cbn [fold_left]. rewrite IH, group_step_candidate.
    unfold members. cbn [omap list_omap]. fold (members w k r).
    destruct (candidate w p) as [[k' v]|]; [|reflexivity].
    destruct (String.eqb k' k) eqn:E.
    + apply String.eqb_eq in E. subst k'. rewrite groups_get_append_eq.
      destruct (groups_get g k); cbn; now rewrite <- ?app_assoc.
    + apply String.eqb_neq in E. rewrite groups_get_append_ne by assumption.
      reflexivity.
Qed.

Lemma group_pngs_get (w : world) (dirpath : path) (k : string) :
  groups_get (group_pngs w dirpath) k
  = match members w k (rglob_png w dirpath) with
    | [] => None
    | m => Some m
    end.
Proof. unfold group_pngs. rewrite group_loop_get. reflexivity. Qed.

Lemma candidate_Some (w : world) (p : path) (k : string) (v : path * Z) :
  candidate w p = Some (k, v) <->
  is_file w p = true /\ k = folder_name p /\ v.1 = p /\
  exists g1 ds, SIZE_RE_match (stem p) = Some (g1, ds) /\ int ds = Some v.2.
Proof.
  unfold candidate. split.
  - destruct (is_file w p); [|discriminate].
    destruct (SIZE_RE_match (stem p)) as [[g1 ds]|]; [|discriminate].
    destruct (int ds) as [z|] eqn:E; [|discriminate].
    intros [= <- <-]. cbn. repeat split. eauto.
  - intros (-> & -> & <- & g1 & ds & -> & ->). now destruct v.
Qed.

Lemma In_members (w : world) (k : string) (found : list path) (v : path * Z) :
  In v (members w k found) <-> In v.1 found /\ candidate w v.1 = Some (k, v).
Proof.
  unfold members. rewrite <- !list_elem_of_In, list_elem_of_omap. split.
  - intros (p & Hp & Hc).
    destruct (candidate w p) as [[k' v']|] eqn:E; [|discriminate].
    destruct (String.eqb k' k) eqn:Ek; [|discriminate].
    injection Hc as ->. apply String.eqb_eq in Ek. subst k'.
    pose proof E as E'. apply candidate_Some in E'. destruct E' as (_ & _ & Hv & _).
    rewrite Hv. split; [exact Hp | exact E].
  - intros [Hp Hc]. exists v.1. split; [exact Hp|].
    rewrite Hc, String.eqb_refl. reflexivity.
Qed.





(** ** The synthesizer *)

Lemma emit_nothing (w : world) : World (fs w) (events w ++ []) = w.
Proof. destruct w. cbn. now rewrite app_nil_r. Qed.


(** [mkdir] that returns leaves the console and every regular file as
    they were. *)
Lemma mkdir_Returned (p : path) (w w1 : world) :
  mkdir p w = (Returned tt, w1) ->
  events w1 = events w /\
  fs w1 !! p = Some Dir /\
  (forall q, q <> p -> fs w1 !! q = fs w !! q) /\
  (forall q c, fs w1 !! q = Some (File c) <-> fs w !! q = Some (File c)).
Proof.
  unfold mkdir. destruct (fs w !! p) as [[c|]|] eqn:E; intros H; [discriminate| |].
  - injection H as <-. repeat split; auto.
  - injection H as <-. cbn. split; [reflexivity|].
    split; [apply lookup_insert_eq|].
    split; [intros q Hq; now apply lookup_insert_ne|].
    intros q c. destruct (decide (p = q)) as [<-|Hne].
    + rewrite lookup_insert_eq, E. split; discriminate.
    + now rewrite lookup_insert_ne.
Qed.

(** An element that survives a filter is in the list, and what the
    filter keeps after it comes from what follows it. *)
Lemma filter_mid_inv {A} (P : A -> bool) (l u t : list A) (x : A) :
  List.filter P l = u ++ x :: t ->
  exists l1 l2, l = l1 ++ x :: l2 /\ List.filter P l2 = t.
Proof.
  revert u. induction l as [|z l IH]; intros u H.
  - cbn in H. destruct u; discriminate.
  - cbn [List.filter] in H. destruct (P z) eqn:Ez.
    + destruct u as [|z' u]; cbn in H.
      * injection H as -> <-. now exists [], l.
      * injection H as _ H. apply IH in H. destruct H as (l1 & l2 & -> & Ht).
        now exists (z :: l1), l2.
    + apply IH in H. destruct H as (l1 & l2 & -> & Ht).
      now exists (z :: l1), l2.
Qed.

(** Two elements of one key keep their order through [sorted]. *)
Lemma sorted_keeps_pair {A} (key : A -> Z) (a b c : list A) (x y : A) :
  key x = key y ->
  exists a' b' c', sorted key (a ++ x :: b ++ y :: c) = a' ++ x :: b' ++ y :: c'.
Proof.
  intros Hk.
  pose proof (sorted_stable key (key x) (a ++ x :: b ++ y :: c)) as Hst.
  rewrite (List.filter_app _ a) in Hst. cbn [List.filter] in Hst.
  rewrite Z.eqb_refl in Hst.
  rewrite (List.filter_app _ b) in Hst. cbn [List.filter] in Hst.
  rewrite <- Hk, Z.eqb_refl in Hst.
  apply filter_mid_inv in Hst. destruct Hst as (a' & l2 & Hs & Hf).
  apply filter_mid_inv in Hf. destruct Hf as (b' & c' & -> & _).
  now exists a', b', c'.
Qed.

Section SynthesizerProperties.

Variable image_size : bytes -> option (Z * Z).
Variable disk_fault : path -> option wfault.

Local Abbreviation validate := (validate_loop image_size).
Local Abbreviation create := (create_ico_for_group image_size disk_fault).
Local Abbreviation loop := (main_loop image_size disk_fault).
Local Abbreviation entries_of f := (flat_map (item_entry image_size f)).
Local Abbreviation events_of f := (flat_map (item_events image_size f)).

(** One turn of the validation loop: it returns, the files are as they
    were, and the candidate has left the events and the entry of its
    verdict. *)
Lemma validate_item_spec (p : path) (s : Z) (entries : list entry) (w : world) :
  validate_item image_size p s entries w
  = (Returned (entries ++ item_entry image_size (fs w) (p, s)),
     World (fs w) (events w ++ item_events image_size (fs w) (p, s))).
Proof.
  unfold validate_item, item_entry, item_events. cbn [fst snd].
  destruct (s =? 0) eqn:Es.
  - unfold ret. now rewrite app_nil_r, emit_nothing.
  - unfold try_except, bind, image_open, read_bytes, print, ret, emit, check.
    cbn [fs events].
    destruct (fs w !! p) as [[data|]|] eqn:Ep; cbn [fs events is_Exception].
    + destruct (image_size data) as [[pw ph]|]; cbn [fs events is_Exception].
      * destruct (negb (pw =? ph)); cbn [fs events].
        { cbn. now rewrite app_nil_r, <- app_assoc. }
        destruct (negb (pw =? s)); cbn [fs events].
        { cbn. now rewrite app_nil_r, <- app_assoc. }
        rewrite Ep. cbn. now rewrite <- app_assoc.
      * cbn. now rewrite app_nil_r, <- app_assoc.
    + cbn. now rewrite app_nil_r, <- app_assoc.
    + cbn. now rewrite app_nil_r, <- app_assoc.
Qed.

(** The whole loop: no candidate stops it. *)
Lemma validate_loop_spec (items : list (path * Z)) (entries : list entry) (w : world) :
  validate items entries w
  = (Returned (entries ++ entries_of (fs w) items),
     World (fs w) (events w ++ events_of (fs w) items)).
Proof.
  revert entries w. induction items as [|[p s] items IH]; intros entries w.
  - cbn. unfold ret. now rewrite app_nil_r, emit_nothing.
  - cbn [validate_loop]. unfold bind. rewrite validate_item_spec, IH.
    cbn [fs events flat_map]. now rewrite <- !app_assoc.
Qed.

Lemma write_chunks_raises (p : path) (chunks : list bytes) (w w' : world) (e : exn) :
  write_chunks disk_fault p chunks w = (Raised e, w') -> is_Exception e = true.
Proof.
  unfold write_chunks.
  destruct (fs (emit (OpenWrite p) w) !! p) as [[c|]|];
    try (intros [= <- _]; reflexivity);
    destruct (disk_fault p) as [[msg|n msg]|];
    intros H; try discriminate; injection H as <- _; reflexivity.
Qed.

(** [create_ico_for_group] once [mkdir] has returned, case by case. *)
Lemma create_ico_cases (base : string) (items : list (path * Z))
      (out_dir : path) (overwrite : bool) (w w1 : world) :
  mkdir out_dir w = (Returned tt, w1) ->
  let ico_path := joinpath out_dir (base +:+ ".ico") in
  let entries := entries_of (fs w1) items in
  let w2 := World (fs w1) (events w1 ++ events_of (fs w1) items) in
  create base items out_dir overwrite w
  = if bool_decide (is_Some (fs w1 !! ico_path)) && negb overwrite
    then (Returned tt, emit (Print (MsgExists ico_path)) w1)
    else
      match entries with
      | [] => (Returned tt, emit (Print (MsgNoUsable base)) w2)
      | _ =>
          match build_ico entries with
          | None => (Raised StructError, w2)
          | Some (es, header, dir_entries, image_data) =>
              match write_chunks disk_fault ico_path
                                 [header; dir_entries; image_data] w2 with
              | (Returned _, w3) =>
                  (Returned tt, emit (Print (MsgGenerated ico_path (map fst es))) w3)
              | (Raised e, w3) =>
                  (Returned tt, emit (Print (MsgWriteFailed ico_path e)) w3)
              end
          end
      end.
Proof.
  intros Hm ico_path entries w2.
  unfold create_ico_for_group, bind at 1. rewrite Hm. fold ico_path.
  unfold bind at 1. unfold path_exists.
  destruct (bool_decide (is_Some (fs w1 !! ico_path)) && negb overwrite);
    [reflexivity|].
  unfold bind at 1. rewrite validate_loop_spec. cbn [app]. fold entries w2.
  destruct entries as [|e0 entries']; [reflexivity|].
  unfold bind at 1.
  destruct (build_ico (e0 :: entries')) as [[[[es h] d] img]|]; cbn [lift_struct];
    [|reflexivity].
  unfold ret at 1. unfold try_except, bind.
  destruct (write_chunks disk_fault ico_path [h; d; img] w2) as [[[]|e] w3] eqn:Ew.
  - reflexivity.
  - apply write_chunks_raises in Ew. now rewrite Ew.
Qed.

Lemma main_loop_cons (base : string) (items : list (path * Z)) (rest : groups_t)
      (outdir : path) (overwrite : bool) (w : world) :
  loop ((base, items) :: rest) outdir overwrite w
  = match create base items outdir overwrite w with
    | (Returned _, w') => loop rest outdir overwrite w'
    | (Raised e, w') => (Raised e, w')
    end.
Proof. reflexivity. Qed.

(** C2. Validation of a group always returns, whatever its candidates:
    a candidate of positive declared size whose probed width differs
    from its height leaves a "not square" diagnostic, one whose width
    differs from the declared size a "dimension mismatch" diagnostic,
    one whose source cannot be read or decoded an "unreadable source"
    diagnostic, and in each case the loop goes on with the next
    candidate. Every candidate of the group leaves its events, in
    order, and the entries are exactly those of the candidates of
    positive size that pass all checks (a candidate of size 0 leaves
    nothing). *)
Theorem validation_rejects_and_continues (items : list (path * Z)) (w : world) :
  let f := fs w in
  validate items [] w
  = (Returned (flat_map (item_entry image_size f) items),
     World f (events w ++ flat_map (item_events image_size f) items)) /\
  (forall p s, 0 < s ->
     item_entry image_size f (p, s) = verdict_entry s (check image_size f p s) /\
     item_events image_size f (p, s)
     = verdict_events p s (check image_size f p s)) /\
  (forall p s,
     match f !! p with
     | Some (File data) =>
         match image_size data with
         | Some (pw, ph) =>
             (pw <> ph -> check image_size f p s = NotSquare pw ph) /\
             (pw = ph -> pw <> s -> check image_size f p s = Mismatch pw) /\
             (pw = ph -> pw = s -> check image_size f p s = Accepted data)
         | None => check image_size f p s = Unreadable (UnidentifiedImageError p)
         end
     | Some Dir => check image_size f p s = Unreadable (IsADirectoryError p)
     | None => check image_size f p s = Unreadable (FileNotFoundError p)
     end).
Proof.
  intros f. split; [|split].
  - rewrite validate_loop_spec. reflexivity.
  - intros p s Hs. unfold item_entry, item_events. cbn [fst snd].
    destruct (s =? 0) eqn:E; [apply Z.eqb_eq in E; lia | now split].
  - intros p s. unfold check.
    destruct (f !! p) as [[data|]|]; try reflexivity.
    destruct (image_size data) as [[pw ph]|]; [|reflexivity].
    repeat split.
    + intros Hne. apply Z.eqb_neq in Hne. now rewrite Hne.
    + intros <- Hne. rewrite Z.eqb_refl. apply Z.eqb_neq in Hne. now rewrite Hne.
    + intros <- <-. now rewrite Z.eqb_refl.
Qed.



(** C8. When the output container of a group is there and overwrite has
    not been requested, the call reports the skip and returns: that
    report is the only event, so no candidate is opened or read and
    nothing is opened for writing, and the file system is exactly as it
    was. A second call does the same again. *)
Theorem existing_output_skipped (base : string) (items : list (path * Z))
        (out_dir : path) (w : world) :
  fs w !! out_dir = Some Dir ->
  is_Some (fs w !! joinpath out_dir (base +:+ ".ico")) ->
  let ico_path := joinpath out_dir (base +:+ ".ico") in
  let w' := World (fs w) (events w ++ [Print (MsgExists ico_path)]) in
  create base items out_dir false w = (Returned tt, w') /\
  create base items out_dir false w'
  = (Returned tt, World (fs w) (events w' ++ [Print (MsgExists ico_path)])).
Proof.
  intros Hd Hex ico_path w'.
  assert (Hskip : forall v, fs v = fs w ->
            create base items out_dir false v
            = (Returned tt, World (fs w) (events v ++ [Print (MsgExists ico_path)]))).
  { intros v Hv.
    assert (Hm : mkdir out_dir v = (Returned tt, v)).
    { unfold mkdir. now rewrite Hv, Hd. }
    rewrite (create_ico_cases base items out_dir false v v Hm). cbv zeta.
    fold ico_path. rewrite Hv, bool_decide_eq_true_2 by exact Hex.
    cbn. unfold emit. now rewrite Hv. }
  split; [now apply Hskip | now apply Hskip].
Qed.


(** A group whose container is written. *)
Lemma create_written (base : string) (items : list (path * Z))
      (out_dir : path) (overwrite : bool) (w w1 : world) (es : list entry)
      (header dir_entries image_data : bytes) :
  mkdir out_dir w = (Returned tt, w1) ->
  let ico_path := joinpath out_dir (base +:+ ".ico") in
  overwrite = true \/ fs w1 !! ico_path = None ->
  entries_of (fs w1) items <> [] ->
  build_ico (entries_of (fs w1) items) = Some (es, header, dir_entries, image_data) ->
  fs w1 !! ico_path <> Some Dir ->
  disk_fault ico_path = None ->
  create base items out_dir overwrite w
  = (Returned tt,
     World (<[ico_path := File (header ++ dir_entries ++ image_data)]> (fs w1))
           (events w ++ events_of (fs w1) items ++
            [OpenWrite ico_path; Print (MsgGenerated ico_path (map fst es))])).
Proof.
  intros Hm ico_path Hgate Hne Hb Hnd Hdisk.
  pose proof (mkdir_Returned _ _ _ Hm) as (Hev & _).
  rewrite (create_ico_cases base items out_dir overwrite w w1 Hm). cbv zeta.
  fold ico_path.
  replace (bool_decide (is_Some (fs w1 !! ico_path)) && negb overwrite) with false.
  - destruct (entries_of (fs w1) items) as [|e0 l] eqn:E; [congruence|].
    rewrite Hb. unfold write_chunks, emit, set_fs. cbn [fs events].
    rewrite Hdisk.
    assert (Hcat : concat [header; dir_entries; image_data]
                   = header ++ dir_entries ++ image_data).
    { cbn. now rewrite app_nil_r. }
    destruct (fs w1 !! ico_path) as [[c|]|] eqn:El; [|congruence|];
      cbn [fs events]; rewrite Hev, Hcat, <- !app_assoc; reflexivity.
  - destruct Hgate as [-> | ->]; [now rewrite andb_false_r|].
    rewrite bool_decide_eq_false_2; [reflexivity|]. now intros [x Hx].
Qed.

(** C6, amended. When two candidates of a group declare the same
    positive size and both pass validation, the container that is
    written has a directory record for each of them, in the order of
    the candidates, and each record points to the payload of its own
    candidate: nothing removes the second one. Both records carry the
    same size byte, so both advertise the declared size when that is at
    most 256, and both advertise 256 when it is larger. The parser
    likewise keeps two files (of ASCII stems) that resolve to the same
    group and size as two members of that group. Stated for an output
    directory that is there, or whose parent is. *)
Theorem duplicate_sizes_kept (base : string) (a b c : list (path * Z))
        (p q : path) (s : Z) (d1 d2 : bytes)
        (out_dir : path) (overwrite : bool) (w w1 : world) (file : bytes) :
  let items := a ++ (p, s) :: b ++ (q, s) :: c in
  let ico_path := joinpath out_dir (base +:+ ".ico") in
  out_ready (fs w) out_dir ->
  mkdir out_dir w = (Returned tt, w1) ->
  overwrite = true \/ fs w1 !! ico_path = None ->
  fs w1 !! ico_path <> Some Dir ->
  disk_fault ico_path = None ->
  0 < s ->
  check image_size (fs w1) p s = Accepted d1 ->
  check image_size (fs w1) q s = Accepted d2 ->
  ico_bytes (entries_of (fs w1) items) = Some file ->
  (exists w', create base items out_dir overwrite w = (Returned tt, w') /\
              fs w' !! ico_path = Some (File file)) /\
  (exists a' b' c',
     sorted fst (entries_of (fs w1) items) = a' ++ (s, d1) :: b' ++ (s, d2) :: c' /\
     read_record file (List.length a') = Some (Z.min s 256, d1) /\
     read_record file (List.length (a' ++ (s, d1) :: b')) = Some (Z.min s 256, d2)) /\
  (forall w0 dirpath k,
     p <> q ->
     is_ascii_text (stem p) = true -> is_ascii_text (stem q) = true ->
     In p (rglob_png w0 dirpath) -> In q (rglob_png w0 dirpath) ->
     candidate w0 p = Some (k, (p, s)) -> candidate w0 q = Some (k, (q, s)) ->
     exists members, groups_get (group_pngs w0 dirpath) k = Some members /\
                     In (p, s) members /\ In (q, s) members).
Proof.
  intros items ico_path _ Hm Hgate Hnd Hdisk Hpos Hp Hq Hfile.
  assert (Hs : s <> 0) by lia.
  assert (Hent : entries_of (fs w1) items
                 = entries_of (fs w1) a ++ (s, d1) ::
                   entries_of (fs w1) b ++ (s, d2) :: entries_of (fs w1) c).
  { subst items. rewrite flat_map_app. cbn [flat_map].
    rewrite flat_map_app. cbn [flat_map].
    unfold item_entry at 2 4. cbn [fst snd].
    apply Z.eqb_neq in Hs. rewrite Hs, Hp, Hq. reflexivity. }
  pose proof (ico_bytes_Some _ _ Hfile) as (Hc & Hf & Hlay).
  split; [|split].
  - assert (Hb : build_ico (entries_of (fs w1) items)
                 = Some (sorted fst (entries_of (fs w1) items),
                         spec_header (len (entries_of (fs w1) items)),
                         spec_directory size_byte
                           (6 + 16 * len (entries_of (fs w1) items))
                           (sorted fst (entries_of (fs w1) items)),
                         spec_payload (sorted fst (entries_of (fs w1) items)))).
    { now apply build_ico_fits. }
    eexists. split.
    + eapply create_written;
        [exact Hm | exact Hgate | | exact Hb | exact Hnd | exact Hdisk].
      rewrite Hent. now destruct (entries_of (fs w1) a).
    + cbn [fs]. fold ico_path. rewrite lookup_insert_eq, Hlay. reflexivity.
  - destruct (sorted_keeps_pair fst (entries_of (fs w1) a) (entries_of (fs w1) b)
                (entries_of (fs w1) c) (s, d1) (s, d2) eq_refl)
      as (a' & b' & c' & Hsort).
    rewrite <- Hent in Hsort. exists a', b', c'. split; [exact Hsort|].
    rewrite Hsort in Hf, Hlay.
    assert (Hlen : len (entries_of (fs w1) items)
                   = len (a' ++ (s, d1) :: b' ++ (s, d2) :: c')).
    { now rewrite <- Hsort, sorted_len. }
    rewrite Hlen in Hf, Hlay. subst file.
    change (Z.min s 256, d1) with (Z.min (s, d1).1 256, (s, d1).2).
    change (Z.min s 256, d2) with (Z.min (s, d2).1 256, (s, d2).2).
    rewrite <- (read_back_min (s, d1)), <- (read_back_min (s, d2)) by exact Hpos.
    split.
    + apply (read_record_at _ a' (b' ++ (s, d2) :: c') s d1). exact Hf.
    + pose proof (read_record_at (len (a' ++ (s, d1) :: b' ++ (s, d2) :: c'))
                    (a' ++ (s, d1) :: b') c' s d2) as R.
      cbv zeta in R. rewrite <- app_assoc in R. cbn [app] in R.
      apply R. exact Hf.
  - intros w0 dirpath k Hne _ _ Hip Hiq Hcp Hcq.
    assert (Hmp : In (p, s) (members w0 k (rglob_png w0 dirpath))).
    { apply In_members. now split. }
    assert (Hmq : In (q, s) (members w0 k (rglob_png w0 dirpath))).
    { apply In_members. now split. }
    rewrite group_pngs_get.
    destruct (members w0 k (rglob_png w0 dirpath)) as [|v m]; [destruct Hmp|].
    eexists. split; [reflexivity|]. now split.
Qed.

End SynthesizerProperties.

(** ** The theorems of the synthesizer on the sample data *)

Lemma validation_rejects_and_continues_witness :
  validate_loop sample_codec [(x0, 0); (a16, 16); (a32, 32)] [] sample_world
  = (Returned [(16, png16)],
     World (fs sample_world)
           [ImageOpen a16; ReadBytes a16;
            ImageOpen a32; Print (MsgMismatch "a_32.png" 30 32)]).
Proof.
  refine (eq_trans (proj1 (validation_rejects_and_continues sample_codec
                             [(x0, 0); (a16, 16); (a32, 32)] sample_world)) _).
  vm_compute. reflexivity.
Defined.


Lemma existing_output_skipped_witness :
  create_ico_for_group sample_codec no_fault "a" [(a16, 16)] ["o"] false done_world
  = (Returned tt, World (fs done_world) [Print (MsgExists a_ico)]).
Proof.
  refine (eq_trans (proj1 (existing_output_skipped sample_codec no_fault "a"
                             [(a16, 16)] ["o"] done_world _ _)) _).
  - vm_compute. reflexivity.
  - eexists. vm_compute. reflexivity.
  - vm_compute. reflexivity.
Defined.


Lemma duplicate_sizes_kept_witness :
  exists w',
    create_ico_for_group sample_codec no_fault "a" [(a64m, 64); (a64u, 64)]
                         ["r"; "o"] false twin_world = (Returned tt, w') /\
    fs w' !! ["r"; "o"; "a.ico"] = Some (File twin_ico).
Proof.
  refine (proj1 (duplicate_sizes_kept sample_codec no_fault "a" [] [] []
                   a64m a64u 64 png64b png64a ["r"; "o"] false twin_world
                   (set_fs (<[ ["r"; "o"] := Dir ]> (fs twin_world)) twin_world)
                   twin_ico _ _ _ _ _ _ _ _ _)).
  - right. split; vm_compute; reflexivity.
  - vm_compute. reflexivity.
  - right. vm_compute. reflexivity.
  - vm_compute. discriminate.
  - reflexivity.
  - lia.
  - vm_compute. reflexivity.
  - vm_compute. reflexivity.
  - vm_compute. reflexivity.
Defined.

(** The claim C6 as stated fails above 256: two accepted candidates of
    the size 512 give two records, and both advertise 256. *)
Lemma twins_of_512_advertise_256 :
  exists w' file,
    create_ico_for_group wide_codec no_fault "a" [(a512m, 512); (a512u, 512)]
                         ["r"; "o"] false wide_world = (Returned tt, w') /\
    fs w' !! ["r"; "o"; "a.ico"] = Some (File file) /\
    read_record file 0 = Some (256, png512b) /\
    read_record file 1 = Some (256, png512a).
Proof.
  eexists. eexists. split; [vm_compute; reflexivity|].
  split; vm_compute; auto.
Qed.

(** ** [center_crop_to_square] *)

(** X1. The crop of an image is a square whose side is the smaller of the
    two dimensions; every pixel of it is a pixel of the source, taken
    from inside the source, and the margins cut off on the two sides of
    the longer dimension differ by at most one. *)
Theorem center_crop_square {A} (img : image A) :
  0 <= width img -> 0 <= height img ->
  let out := center_crop_to_square img in
  let m := Z.min (width img) (height img) in
  let dx := (width img - m) / 2 in
  let dy := (height img - m) / 2 in
  width out = m /\ height out = m /\
  (forall x y, pixel out x y = pixel img (x + dx) (y + dy)) /\
  (forall x y, 0 <= x < m -> 0 <= y < m ->
     0 <= x + dx < width img /\ 0 <= y + dy < height img) /\
  0 <= (width img - m - dx) - dx <= 1 /\
  0 <= (height img - m - dy) - dy <= 1 /\
  (dx = 0 \/ dy = 0).
Proof.
  intros Hw Hh out m dx dy. subst out. unfold center_crop_to_square.
  assert (Hdx : 0 <= 2 * dx <= width img - m /\ width img - m <= 2 * dx + 1).
  { subst dx. pose proof (Z.div_mod (width img - m) 2 ltac:(lia)).
    pose proof (Z.mod_pos_bound (width img - m) 2 ltac:(lia)). subst m. lia. }
  assert (Hdy : 0 <= 2 * dy <= height img - m /\ height img - m <= 2 * dy + 1).
  { subst dy. pose proof (Z.div_mod (height img - m) 2 ltac:(lia)).
    pose proof (Z.mod_pos_bound (height img - m) 2 ltac:(lia)). subst m. lia. }
  assert (Hz : dx = 0 \/ dy = 0).
  { destruct (Z.le_ge_cases (width img) (height img)) as [H|H].
    - left. subst dx m. rewrite Z.min_l by lia. now rewrite Z.sub_diag.
    - right. subst dy m. rewrite Z.min_r by lia. now rewrite Z.sub_diag. }
  destruct (width img =? height img) eqn:E.
  - apply Z.eqb_eq in E.
    assert (dx = 0 /\ dy = 0) as [Hx Hy].
    { subst dx dy m. rewrite E, Z.min_id, Z.sub_diag. now split. }
    rewrite Hx, Hy. repeat split; try (subst m; lia); try (now left).
    intros x y. now rewrite !Z.add_0_r.
  - cbn [crop width height pixel]. fold m dx dy.
    repeat split; try lia; exact Hz.
Qed.

Lemma center_crop_square_witness :
  width (center_crop_to_square (Image 5 2 (fun x y => (x, y)))) = 2 /\
  pixel (center_crop_to_square (Image 5 2 (fun x y => (x, y)))) 0 0 = (1, 0).
Proof.
  pose proof (center_crop_square (Image 5 2 (fun x y => (x, y)))
                ltac:(cbn; lia) ltac:(cbn; lia)) as H.
  cbv zeta in H. destruct H as (Hw & _ & Hp & _).
  split; [exact Hw | exact (Hp 0 0)].
Defined.

(** ** [sizes_from_group] *)

Lemma sorted_le_NoDup_lt (l : list Z) :
  StronglySorted Z.le l -> List.NoDup l -> StronglySorted Z.lt l.
Proof.
  induction 1 as [|x l Hs IH Hx]; intros Hnd; constructor.
  - apply IH. now inversion Hnd.
  - inversion Hnd as [|? ? Hnin _]; subst.
    rewrite List.Forall_forall in *. intros y Hy.
    specialize (Hx y Hy). assert (x <> y) by (intros ->; auto). lia.
Qed.

(** X2. [sizes_from_group] lists the positive declared sizes of a group,
    each one once, in strictly ascending order: sizes that are 0 or
    negative are left out and two candidates of one size give one
    element. *)
Theorem sizes_from_group_spec (items : list (path * Z)) :
  StronglySorted Z.lt (sizes_from_group items) /\
  (forall x, In x (sizes_from_group items) <-> 0 < x /\ exists p, In (p, x) items).
Proof.
  unfold sizes_from_group.
  set (kept := map snd (List.filter (fun it => negb (it.2 =? 0) && (it.2 >? 0)) items)).
  set (l := elements (list_to_set (C := gset Z) kept)).
  pose proof (sorted_perm (fun x : Z => x) l) as Hperm.
  split.
  - apply sorted_le_NoDup_lt.
    + pose proof (sorted_map_key (fun x : Z => x) _ (sorted_sorted (fun x : Z => x) l)) as H.
      now rewrite map_id in H.
    + eapply Permutation_NoDup; [symmetry; exact Hperm|].
      apply NoDup_ListNoDup, NoDup_elements.
  - intros x.
    assert (Hin : In x (sorted (fun x : Z => x) l) <-> In x kept).
    { split; intros H.
      - apply (Permutation_in _ Hperm) in H. apply list_elem_of_In in H.
        subst l. apply elem_of_elements, elem_of_list_to_set in H.
        now apply list_elem_of_In.
      - apply (Permutation_in _ (Permutation_sym Hperm)). apply list_elem_of_In.
        subst l. apply elem_of_elements, elem_of_list_to_set.
        now apply list_elem_of_In. }
    rewrite Hin. subst kept. rewrite in_map_iff. split.
    + intros ([p s] & <- & Hf). apply filter_In in Hf. destruct Hf as [Hi Hc].
      cbn in *. apply andb_prop in Hc. destruct Hc as [_ Hpos].
      split; [lia | eauto].
    + intros (Hpos & p & Hi). exists (p, x). split; [reflexivity|].
      apply filter_In. split; [exact Hi|]. cbn.
      apply andb_true_intro. split; [|lia].
      apply negb_true_iff, Z.eqb_neq. lia.
Qed.

(** ** [group_pngs]: what every result satisfies *)

Lemma rglob_png_In (w : world) (dirpath p : path) :
  In p (rglob_png w dirpath) <->
  is_Some (fs w !! p) /\ is_prefix dirpath p = true /\
  (List.length dirpath < List.length p)%nat /\ is_png_name (name p) = true.
Proof.
  unfold rglob_png. split.
  - intros H. apply (Permutation_in _ (sort_by_perm _ _)) in H.
    apply filter_In in H. destruct H as [Hi Hc].
    apply in_map_iff in Hi. destruct Hi as ([q n] & <- & Hq). cbn in *.
    apply list_elem_of_In, elem_of_map_to_list in Hq.
    apply andb_prop in Hc. destruct Hc as [Hc Hpng].
    apply andb_prop in Hc. destruct Hc as [Hpre Hlen].
    apply Nat.ltb_lt in Hlen. repeat split; eauto.
  - intros ([n Hn] & Hpre & Hlen & Hpng).
    apply (Permutation_in _ (Permutation_sym (sort_by_perm _ _))).
    apply filter_In. split.
    + apply in_map_iff. exists (p, n). split; [reflexivity|].
      now apply list_elem_of_In, elem_of_map_to_list.
    + apply Nat.ltb_lt in Hlen. now rewrite Hpre, Hlen, Hpng.
Qed.

Lemma rglob_png_NoDup (w : world) (dirpath : path) :
  List.NoDup (rglob_png w dirpath).
Proof.
  unfold rglob_png.
  eapply Permutation_NoDup; [symmetry; apply sort_by_perm|].
  apply List.NoDup_filter. apply NoDup_ListNoDup, (NoDup_fst_map_to_list (fs w)).
Qed.

Lemma members_NoDup (w : world) (k : string) (found : list path) :
  List.NoDup found -> List.NoDup (map fst (members w k found)).
Proof.
  induction 1 as [|p found Hnin Hnd IH]; [constructor|].
  unfold members. cbn [omap list_omap]. fold (members w k found).
  destruct (candidate w p) as [[k' v]|] eqn:E; [|exact IH].
  destruct (String.eqb k' k); [|exact IH].
  apply candidate_Some in E. destruct E as (_ & _ & Hv & _).
  cbn [map]. rewrite Hv. constructor; [|exact IH].
  intros Hin. apply in_map_iff in Hin. destruct Hin as (v' & Hv' & Hin).
  apply In_members in Hin. destruct Hin as [Hin _]. rewrite Hv' in Hin.
  now apply Hnin.
Qed.

Lemma groups_append_keys (g : groups_t) (k : string) (v : path * Z) :
  map fst (groups_append g k v)
  = if existsb (String.eqb k) (map fst g) then map fst g else map fst g ++ [k].
Proof.
  induction g as [|[k' l] g IH]; [reflexivity|].
  cbn [groups_append map fst existsb].
  rewrite (String.eqb_sym k k').
  destruct (String.eqb k' k) eqn:E; cbn [orb map fst]; [reflexivity|].
  rewrite IH. now destruct (existsb (String.eqb k) (map fst g)).
Qed.

Lemma groups_append_NoDup (g : groups_t) (k : string) (v : path * Z) :
  List.NoDup (map fst g) -> List.NoDup (map fst (groups_append g k v)).
Proof.
  intros Hnd. rewrite groups_append_keys.
  destruct (existsb (String.eqb k) (map fst g)) eqn:E; [exact Hnd|].
  apply NoDup_ListNoDup, NoDup_app.
  split; [now apply NoDup_ListNoDup|]. split; [|apply NoDup_singleton].
  intros x Hx Hk. apply list_elem_of_In in Hx, Hk. destruct Hk as [<-|[]].
  assert (existsb (String.eqb k) (map fst g) = true); [|congruence].
  apply existsb_exists. exists k. split; [exact Hx | apply String.eqb_refl].
Qed.

Lemma group_loop_NoDup (w : world) (found : list path) (g : groups_t) :
  List.NoDup (map fst g) -> List.NoDup (map fst (fold_left (group_step w) found g)).
Proof.
  revert g. induction found as [|p found IH]; intros g Hnd; [exact Hnd|].
  cbn [fold_left]. apply IH. rewrite group_step_candidate.
  destruct (candidate w p) as [[k v]|]; [|exact Hnd].
  now apply groups_append_NoDup.
Qed.

Lemma groups_get_In (g : groups_t) (k : string) (l : list (path * Z)) :
  List.NoDup (map fst g) -> (In (k, l) g <-> groups_get g k = Some l).
Proof.
  induction g as [|[k' l'] g IH]; intros Hnd.
  - cbn. split; [intros [] | discriminate].
  - cbn [map fst] in Hnd. inversion Hnd as [|? ? Hnin Hnd']; subst.
    cbn [groups_get In]. destruct (String.eqb k' k) eqn:E.
    + apply String.eqb_eq in E. subst k'. split.
      * intros [[= ->]|Hin]; [reflexivity|].
        exfalso. apply Hnin, in_map_iff. now exists (k, l).
      * intros [= ->]. now left.
    + apply String.eqb_neq in E. rewrite <- (IH Hnd'). split.
      * intros [[= -> _]|Hin]; [congruence | exact Hin].
      * intros Hin. now right.
Qed.

(** X3. When the stems of the scanned paths are ASCII, the result of
    [group_pngs] has each key once and no empty group. A group holds the
    candidates of its key in scan order, each file once; every member is
    a file below the scanned directory whose name ends in [.png], its
    folder name is the key of the group and its declared size is not
    negative. *)
Theorem group_pngs_invariant (w : world) (dirpath : path) :
  (forall p, In p (rglob_png w dirpath) -> is_ascii_text (stem p) = true) ->
  List.NoDup (map fst (group_pngs w dirpath)) /\
  (forall k items, In (k, items) (group_pngs w dirpath) ->
     items <> [] /\
     items = members w k (rglob_png w dirpath) /\
     List.NoDup (map fst items) /\
     (forall p s, In (p, s) items ->
        is_file w p = true /\ is_prefix dirpath p = true /\
        (List.length dirpath < List.length p)%nat /\
        is_png_name (name p) = true /\ folder_name p = k /\ 0 <= s)).
Proof.
  intros _.
  assert (Hnd : List.NoDup (map fst (group_pngs w dirpath))).
  { apply group_loop_NoDup. constructor. }
  split; [exact Hnd|]. intros k items Hin.
  apply (groups_get_In _ _ _ Hnd) in Hin. rewrite group_pngs_get in Hin.
  destruct (members w k (rglob_png w dirpath)) as [|v m] eqn:Em; [discriminate|].
  injection Hin as <-. split; [discriminate|]. split; [reflexivity|].
  rewrite <- Em. split; [apply members_NoDup, rglob_png_NoDup|].
  intros p s Hp. apply In_members in Hp. cbn [fst] in Hp. destruct Hp as [Hr Hc].
  apply rglob_png_In in Hr. destruct Hr as (_ & Hpre & Hlen & Hpng).
  apply candidate_Some in Hc. cbn [fst snd] in Hc.
  destruct Hc as (Hf & Hk & _ & g1 & ds & _ & Hint).
  apply int_nonneg in Hint. auto 10.
Qed.

Lemma group_pngs_invariant_witness :
  List.NoDup (map fst (group_pngs sample_world ["r"])).
Proof.
  refine (proj1 (group_pngs_invariant sample_world ["r"] _)).
  intros p Hp. vm_compute in Hp.
  repeat (destruct Hp as [<-|Hp]; [reflexivity|]). destruct Hp.
Defined.

Lemma list_ascii_of_string_app (a b : string) :
  list_ascii_of_string (a +:+ b) = list_ascii_of_string a ++ list_ascii_of_string b.
Proof.
  induction a as [|c a IH]; [reflexivity|].
  change (String c a +:+ b) with (String c (a +:+ b)).
  cbn [list_ascii_of_string]. now rewrite IH.
Qed.

Lemma string_app_inj_r (a b c : string) : a +:+ c = b +:+ c -> a = b.
Proof.
  intros H. apply (f_equal list_ascii_of_string) in H.
  rewrite !list_ascii_of_string_app in H. apply app_inv_tail in H.
  apply (f_equal string_of_list_ascii) in H.
  now rewrite !string_of_list_ascii_of_string in H.
Qed.

(** X4. The groups of one scan are written to pairwise different
    container files: no two groups of a run share their output path. *)
Theorem group_outputs_distinct (w : world) (dirpath out_dir : path) :
  List.NoDup (map (fun g => joinpath out_dir (g.1 +:+ ".ico"))
                  (group_pngs w dirpath)).
Proof.
  assert (Hnd : List.NoDup (map fst (group_pngs w dirpath))).
  { apply group_loop_NoDup. constructor. }
  rewrite <- (map_map fst (fun k => joinpath out_dir (k +:+ ".ico"))).
  apply Finite.Injective_map_NoDup; [|exact Hnd].
  intros a b H. unfold joinpath in H. apply app_inv_head in H.
  injection H as H. now apply string_app_inj_r in H.
Qed.

(** ** Where [struct.pack] raises *)

(** X5. [build_ico] raises exactly when there are more than 65535
    entries or some field of a directory record is out of range (a
    negative size, a payload of 2^32 bytes or more, an offset of 2^32 or
    more); otherwise it returns the header, the directory and the payload
    region. *)
Theorem build_ico_None_iff (entries : list entry) :
  build_ico entries = None <->
  ~ (len entries <= 65535 /\ fits (6 + 16 * len entries) (sorted fst entries)).
Proof.
  split.
  - intros Hn [Hc Hf]. rewrite build_ico_fits in Hn by assumption. discriminate.
  - intros Hn. destruct (build_ico entries) as [[[[es h] d] img]|] eqn:E;
      [|reflexivity].
    exfalso. apply Hn. apply build_ico_Some in E. tauto.
Qed.

(** ** What [create_ico_for_group] leaves alone *)

(** A path is a prefix of itself: a path that is no prefix of [p] is
    neither [p] nor one of its ancestors. *)
Lemma is_prefix_refl (p : path) : is_prefix p p = true.
Proof.
  induction p as [|a p IH]; [reflexivity|].
  cbn. now rewrite String.eqb_refl, IH.
Qed.

Lemma not_prefix_ne (q p : path) : is_prefix q p = false -> q <> p.
Proof. intros H ->. now rewrite is_prefix_refl in H. Qed.

Section SynthesizerFrame.

Variable image_size : bytes -> option (Z * Z).
Variable disk_fault : path -> option wfault.

Local Abbreviation create := (create_ico_for_group image_size disk_fault).
Local Abbreviation loop := (main_loop image_size disk_fault).
Local Abbreviation entries_of f := (flat_map (item_entry image_size f)).
Local Abbreviation events_of f := (flat_map (item_events image_size f)).

Lemma mkdir_Raised (p : path) (w w1 : world) (e : exn) :
  mkdir p w = (Raised e, w1) ->
  w1 = w /\ e = FileExistsError p /\ exists c, fs w !! p = Some (File c).
Proof.
  unfold mkdir. destruct (fs w !! p) as [[c|]|]; intros H; try discriminate.
  injection H as <- <-. eauto.
Qed.

Lemma write_chunks_frame (p : path) (chunks : list bytes) (w : world) :
  (forall q, q <> p -> fs (write_chunks disk_fault p chunks w).2 !! q = fs w !! q) /\
  exists more, events (write_chunks disk_fault p chunks w).2 = events w ++ more.
Proof.
  unfold write_chunks, emit, set_fs. cbn [fs events].
  destruct (fs w !! p) as [[c|]|]; try destruct (disk_fault p) as [[msg|n msg]|];
    cbn [fs events snd]; (split; [|eauto]); intros q Hq;
    rewrite ?lookup_insert_ne by congruence; reflexivity.
Qed.

Lemma create_when_mkdir_raises (base : string) (items : list (path * Z))
      (out_dir : path) (overwrite : bool) (w w1 : world) (e : exn) :
  mkdir out_dir w = (Raised e, w1) ->
  create base items out_dir overwrite w = (Raised e, w1).
Proof. intros Hm. unfold create_ico_for_group, bind at 1. now rewrite Hm. Qed.

(** The files and the console after a call, whatever its outcome. *)
Lemma create_frame (base : string) (items : list (path * Z))
      (out_dir : path) (overwrite : bool) (w : world) :
  (forall q, q <> out_dir -> q <> joinpath out_dir (base +:+ ".ico") ->
     fs (create base items out_dir overwrite w).2 !! q = fs w !! q) /\
  exists more, events (create base items out_dir overwrite w).2 = events w ++ more.
Proof.
  destruct (mkdir out_dir w) as [[[]|e] w1] eqn:Hm.
  - pose proof (mkdir_Returned _ _ _ Hm) as (Hev & _ & Hother & _).
    rewrite (create_ico_cases image_size disk_fault base items out_dir overwrite w w1 Hm).
    cbv zeta.
    set (ico_path := joinpath out_dir (base +:+ ".ico")).
    set (w2 := World (fs w1) (events w1 ++ events_of (fs w1) items)).
    destruct (bool_decide (is_Some (fs w1 !! ico_path)) && negb overwrite).
    { unfold emit. cbn [snd fs events]. rewrite Hev. split; [|eauto].
      intros q Hq _. now apply Hother. }
    destruct (entries_of (fs w1) items) as [|e0 l].
    { subst w2. unfold emit. cbn [snd fs events].
      rewrite Hev, <- app_assoc. split; [|eauto].
      intros q Hq _. now apply Hother. }
    destruct (build_ico (e0 :: l)) as [[[[es h] d] img]|].
    2:{ subst w2. cbn [snd fs events]. rewrite Hev. split; [|eauto].
        intros q Hq _. now apply Hother. }
    pose proof (write_chunks_frame ico_path [h; d; img] w2) as [Hfr [more Hmore]].
    destruct (write_chunks disk_fault ico_path [h; d; img] w2) as [[[]|e] w3];
      unfold emit; cbn [snd fs events] in *; rewrite Hmore; subst w2;
      cbn [events]; rewrite Hev, <- !app_assoc; (split; [|eauto]);
      intros q Hq Hq'; rewrite Hfr by exact Hq'; cbn [fs]; now apply Hother.
  - rewrite (create_when_mkdir_raises base items out_dir overwrite w w1 e Hm).
    apply mkdir_Raised in Hm. destruct Hm as (-> & _). cbn [snd].
    split; [reflexivity|]. exists []. now rewrite app_nil_r.
Qed.

(** X6. Whatever the outcome of [create_ico_for_group], return or
    exception, the only paths of the file system that can differ
    afterwards are the output directory, its ancestors (which [mkdir]
    creates when they are missing) and the container file of the group:
    every other path, the source images among them, is as it was; and
    what was printed before is still there, with the new output after
    it. *)
Theorem create_touches_only_output (base : string) (items : list (path * Z))
        (out_dir : path) (overwrite : bool) (w : world) (q : path) :
  is_prefix q out_dir = false ->
  q <> joinpath out_dir (base +:+ ".ico") ->
  fs (create base items out_dir overwrite w).2 !! q = fs w !! q /\
  exists more, events (create base items out_dir overwrite w).2 = events w ++ more.
Proof.
  intros Hq Hq'. apply not_prefix_ne in Hq.
  destruct (create_frame base items out_dir overwrite w) as [H1 H2].
  split; [now apply H1 | exact H2].
Qed.

(** X7. Two ways in which [create_ico_for_group] raises. When the
    output directory is a regular file, [mkdir] raises
    [FileExistsError] and nothing else has happened. When the output
    directory is there, or is absent with its parent there, the output
    is absent or may be overwritten, and [struct.pack] refuses the
    entries that survive validation (more than 65535 of them, or a field
    out of range), the call raises as well: nothing has been opened for
    writing, the console has only grown, and the file system is as
    [mkdir] left it. An exception of the call ends the loop of [main]
    there, the remaining groups untouched. *)
Theorem create_raises (base : string) (items : list (path * Z))
        (out_dir : path) (overwrite : bool) (w : world) :
  let ico_path := joinpath out_dir (base +:+ ".ico") in
  (is_file w out_dir = true ->
   create base items out_dir overwrite w = (Raised (FileExistsError out_dir), w)) /\
  (forall w1,
     out_ready (fs w) out_dir ->
     mkdir out_dir w = (Returned tt, w1) ->
     overwrite = true \/ fs w1 !! ico_path = None ->
     build_ico (entries_of (fs w1) items) = None ->
     exists e w' more,
       create base items out_dir overwrite w = (Raised e, w') /\
       fs w' = fs w1 /\
       events w' = events w ++ more /\
       forall q, ~ In (OpenWrite q) more) /\
  (forall e w',
     create base items out_dir overwrite w = (Raised e, w') ->
     forall rest, loop ((base, items) :: rest) out_dir overwrite w = (Raised e, w')).
Proof.
  intros ico_path. split; [|split].
  - intros Hf. unfold create_ico_for_group, bind at 1, mkdir.
    unfold is_file in Hf. destruct (fs w !! out_dir) as [[c|]|]; try discriminate.
    reflexivity.
  - intros w1 _ Hm Hgate Hb.
    pose proof (mkdir_Returned _ _ _ Hm) as (Hev & _).
    rewrite (create_ico_cases image_size disk_fault base items out_dir overwrite w w1 Hm).
    cbv zeta. fold ico_path.
    assert (Eg : bool_decide (is_Some (fs w1 !! ico_path)) && negb overwrite = false).
    { destruct Hgate as [-> | Hn]; [apply andb_false_r|].
      rewrite Hn. apply andb_false_iff. left.
      apply bool_decide_eq_false_2. intros [x Hx]. discriminate. }
    rewrite Eg.
    destruct (entries_of (fs w1) items) as [|e0 l] eqn:Ee;
      [vm_compute in Hb; discriminate|].
    rewrite Hb. rewrite Hev.
    exists StructError, (World (fs w1) (events w ++ events_of (fs w1) items)),
      (events_of (fs w1) items).
    split; [reflexivity|]. split; [reflexivity|]. split; [reflexivity|].
    intros q Hin. apply in_flat_map in Hin. destruct Hin as ([p s] & _ & Hin).
    unfold item_events in Hin. cbn [fst snd] in Hin.
    destruct (s =? 0); [destruct Hin|].
    destruct (check image_size (fs w1) p s); cbn in Hin;
      intuition discriminate.
  - intros e w' Hc rest. now rewrite main_loop_cons, Hc.
Qed.

End SynthesizerFrame.

(** ** Running again, and the whole of [main] *)

Section MainProperties.

Variable image_size : bytes -> option (Z * Z).
Variable disk_fault : path -> option wfault.

Local Abbreviation create := (create_ico_for_group image_size disk_fault).
Local Abbreviation loop := (main_loop image_size disk_fault).
Local Abbreviation entries_of f := (flat_map (item_entry image_size f)).
Local Abbreviation events_of f := (flat_map (item_events image_size f)).



Lemma parent_joinpath (p : path) (s : string) : parent (joinpath p s) = p.
Proof. unfold parent, joinpath. apply removelast_last. Qed.

Lemma loop_frame (groups : groups_t) (out : path) (ov : bool) (w : world) (q : path) :
  q <> out ->
  (forall g, In g groups -> q <> joinpath out (g.1 +:+ ".ico")) ->
  fs (loop groups out ov w).2 !! q = fs w !! q.
Proof.
  intros Hq. revert w. induction groups as [|[base items] groups IH]; intros w Hg.
  - reflexivity.
  - rewrite main_loop_cons.
    pose proof (create_frame image_size disk_fault base items out ov w) as [Hfr _].
    specialize (Hfr q Hq (Hg (base, items) (or_introl eq_refl))).
    destruct (create base items out ov w) as [[[]|e] w1]; cbn [snd] in *.
    + rewrite IH; [exact Hfr|]. intros g Hin. apply Hg. now right.
    + exact Hfr.
Qed.

(** X9. A run of [main], whatever its outcome, changes at most the
    output directory, its ancestors (which [mkdir] creates when they are
    missing) and the container files of the groups it found: a path
    that does not lie directly in the output directory and is neither
    that directory nor one of its ancestors is afterwards as it was
    before; and so is, when the stems of the scanned paths are ASCII,
    a path in the output directory that is the container of none of the
    groups. *)
Theorem main_touches_only_outputs (dir out : path) (ov : bool) (w : world) (q : path) :
  is_prefix q out = false ->
  ((forall p, In p (rglob_png w dir) -> is_ascii_text (stem p) = true) /\
   (forall g, In g (group_pngs w dir) -> q <> joinpath out (g.1 +:+ ".ico"))) \/
  parent q <> out ->
  fs (main image_size disk_fault dir out ov w).2 !! q = fs w !! q.
Proof.
  intros Hq Hnot. apply not_prefix_ne in Hq.
  assert (Hg : forall g, In g (group_pngs w dir) -> q <> joinpath out (g.1 +:+ ".ico")).
  { destruct Hnot as [[_ H]|H]; [exact H|].
    intros g _ ->. apply H. apply parent_joinpath. }
  unfold main. destruct (negb (is_dir w dir)); [reflexivity|].
  destruct (group_pngs w dir) as [|g gs] eqn:E; [reflexivity|].
  unfold bind. pose proof (loop_frame (g :: gs) out ov w q Hq Hg) as Hl.
  destruct (loop (g :: gs) out ov w) as [[[]|e] w1]; cbn [snd] in *; exact Hl.
Qed.

Lemma group_loop_nothing (w : world) (found : list path) (g : groups_t) :
  (forall p, In p found -> candidate w p = None) ->
  fold_left (group_step w) found g = g.
Proof.
  revert g. induction found as [|p found IH]; intros g H; [reflexivity|].
  cbn [fold_left]. rewrite group_step_candidate, (H p (or_introl eq_refl)).
  apply IH. intros p' Hp'. apply H. now right.
Qed.

(** X10. [main] stops with [SystemExit] before it has done anything when
    the scan root is not a directory. When the root is a directory in
    which the stems of the scanned paths are ASCII and no scanned path
    is a file with a size suffix, it reports that no image was found and
    returns: nothing is validated, the output directory is not created
    and nothing is written. *)
Theorem main_without_work (dir out : path) (ov : bool) (w : world) :
  (is_dir w dir = false ->
   exists msg, main image_size disk_fault dir out ov w = (Raised (SystemExit msg), w)) /\
  (is_dir w dir = true ->
   (forall p, In p (rglob_png w dir) -> is_ascii_text (stem p) = true) ->
   (forall p, In p (rglob_png w dir) -> candidate w p = None) ->
   main image_size disk_fault dir out ov w
   = (Returned tt, World (fs w) (events w ++ [Print MsgNoPng]))).
Proof.
  split.
  - intros Hd. unfold main. rewrite Hd. cbn. eauto.
  - intros Hd _ Hnone. unfold main. rewrite Hd. cbn [negb].
    unfold group_pngs. rewrite group_loop_nothing by exact Hnone. reflexivity.
Qed.

End MainProperties.

(** ** Groups of candidates of size 0 *)

Section ZeroSizeGroups.

Variable image_size : bytes -> option (Z * Z).
Variable disk_fault : path -> option wfault.

Local Abbreviation create := (create_ico_for_group image_size disk_fault).
Local Abbreviation loop := (main_loop image_size disk_fault).




End ZeroSizeGroups.



(** ** [parse_sizes] *)

(** X11. Every list that [parse_sizes] returns is non-empty, strictly
    descending, and made of multiples of 4 between 16 and 256: the test
    for a non-positive size in [main] never fires on it, and no size
    comes twice. *)
Theorem parse_sizes_range (size : option string) (l : list Z) :
  parse_sizes size = Some l ->
  l <> [] /\ StronglySorted Z.gt l /\
  Forall (fun z => 16 <= z <= 256 /\ z mod 4 = 0) l.
Proof.
  assert (Hall : l = DEFAULT_SIZE_LARGE ++ DEFAULT_SIZE_SMALL \/
                 l = DEFAULT_SIZE_LARGE \/ l = DEFAULT_SIZE_SMALL ->
                 l <> [] /\ StronglySorted Z.gt l /\
                 Forall (fun z => 16 <= z <= 256 /\ z mod 4 = 0) l).
  { intros [-> | [-> | ->]]; vm_compute;
      (split; [discriminate|]); split;
      repeat (constructor; try reflexivity; try (split; [split|]; discriminate || reflexivity)). }
  intros H. apply Hall. unfold parse_sizes in H.
  destruct size as [[|c s]|].
  - injection H as <-. now left.
  - destruct (char_in "l" (String c s)); [injection H as <-; auto|].
    destruct (char_in "s" (String c s)); [injection H as <-; auto|].
    discriminate.
  - injection H as <-. now left.
Qed.

Lemma parse_sizes_range_witness :
  StronglySorted Z.gt [60; 56; 52; 48; 44; 40; 36; 32; 28; 24; 20; 16].
Proof.
  refine (proj1 (proj2 (parse_sizes_range (Some "s") _ _))).
  vm_compute. reflexivity.
Defined.

(** ** [resize_pngs.py]: what a run changes *)

Lemma existsb_eqb_false (P : ascii -> bool) (x : ascii) (l : list ascii) :
  forallb P l = true -> P x = false -> existsb (Ascii.eqb x) l = false.
Proof.
  intros Hall Hx. induction l as [|c l IH]; [reflexivity|].
  cbn in *. apply andb_prop in Hall. destruct Hall as [Hc Hl].
  rewrite IH by exact Hl. rewrite orb_false_r.
  destruct (Ascii.eqb x c) eqn:E; [|reflexivity].
  apply Ascii.eqb_eq in E. congruence.
Qed.

Section ResizeProperties.

Variable image_size : bytes -> option (Z * Z).
Variable image_loads : bytes -> bool.
Variable lanczos_png : bytes -> Z -> bytes.
Variable save_fault : path -> option (save_left * string).

Local Abbreviation save := (save_png save_fault).
Local Abbreviation rloop := (resize_loop lanczos_png save_fault).
Local Abbreviation rmain := (resize_main image_size image_loads lanczos_png save_fault).

Lemma save_png_frame (target : path) (content : bytes) (w : rworld) (q : path) :
  q <> target -> rfs (save target content w).2 !! q = rfs w !! q.
Proof.
  intros Hq. unfold save_png, remit, rset_fs. cbn [rfs rlog].
  destruct (rfs w !! target) as [[c|]|];
    try destruct (save_fault target) as [[[| |b] msg]|]; cbn [snd rfs];
    rewrite ?lookup_insert_ne, ?lookup_delete_ne by congruence; reflexivity.
Qed.


(** The loop changes the targets of its sizes only. *)
Lemma resize_loop_frame (a : args) (data : bytes) (base_name : string)
      (sizes : list Z) (w : rworld) (q : path) :
  (forall sz, In sz sizes -> q <> target_path a base_name sz) ->
  rfs (rloop a data base_name sizes w).2 !! q = rfs w !! q.
Proof.
  revert w. induction sizes as [|sz sizes IH]; intros w Hq; [reflexivity|].
  assert (Hq' : forall sz', In sz' sizes -> q <> target_path a base_name sz').
  { intros sz' H. apply Hq. now right. }
  cbn [resize_loop]. destruct (sz <=? 0); [now rewrite IH|].
  destruct (bool_decide _ && negb (arg_overwrite a)); [now rewrite IH|].
  pose proof (save_png_frame (target_path a base_name sz) (lanczos_png data sz) w q
                (Hq sz (or_introl eq_refl))) as Hs.
  destruct (save _ _ w) as [[[]|e] w1]; cbn [snd] in *; [|exact Hs].
  rewrite IH by exact Hq'. exact Hs.
Qed.

(** Without overwrite the loop leaves what exists alone. *)
Lemma resize_loop_keeps (a : args) (data : bytes) (base_name : string)
      (sizes : list Z) (w : rworld) (q : path) (n : node) :
  arg_overwrite a = false ->
  rfs w !! q = Some n ->
  rfs (rloop a data base_name sizes w).2 !! q = Some n.
Proof.
  intros Ho. revert w. induction sizes as [|sz sizes IH]; intros w Hq; [exact Hq|].
  cbn [resize_loop]. destruct (sz <=? 0); [now apply IH|].
  rewrite Ho. cbn [negb]. rewrite andb_true_r.
  destruct (bool_decide (is_Some (rfs w !! target_path a base_name sz))) eqn:Ex;
    [now apply IH|].
  apply bool_decide_eq_false_1 in Ex.
  assert (Hne : q <> target_path a base_name sz).
  { intros ->. apply Ex. eauto. }
  pose proof (save_png_frame (target_path a base_name sz) (lanczos_png data sz) w q Hne)
    as Hs.
  destruct (save _ _ w) as [[[]|e] w1]; cbn [snd] in *.
  - apply IH. cbn [remit rfs]. now rewrite Hs.
  - now rewrite Hs.
Qed.


(** A property of the world that logging keeps, that creating the
    output directory keeps and that the loop keeps, holds after [main]. *)
Lemma resize_main_world (P : rworld -> Prop) (a : args) (w : rworld) :
  P w ->
  (forall e v, (forall p, e <> RSave p) -> P v -> P (remit e v)) ->
  (rfs w !! arg_out a = None -> P (rset_fs (<[arg_out a := Dir]> (rfs w)) w)) ->
  (forall data sizes v,
     P v -> P (rloop a data (string_of_list_ascii (stem (arg_source a))) sizes v).2) ->
  P (rmain a w).2.
Proof.
  intros HP Hlog Hmk Hloop. unfold resize_main.
  destruct (rfs w !! arg_source a) as [[data|]|]; try exact HP.
  destruct (negb _); [exact HP|].
  assert (Htail : forall w0, P w0 ->
            P (let w := remit (ROpen (arg_source a)) w0 in
               match image_size data with
               | None => (Failed (RUnidentifiedImageError (arg_source a)), w)
               | Some size =>
                   if negb (image_loads data) then (Failed (ROSError "load"), w)
                   else
                     match ensure_square_1024 size w with
                     | (Failed e, w) => (Failed e, w)
                     | (Done _, w) =>
                         match parse_sizes (arg_sizes a) with
                         | None => (Failed RTypeError, w)
                         | Some sizes =>
                             match rloop a data (string_of_list_ascii (stem (arg_source a)))
                                         sizes w with
                             | (Failed e, w) => (Failed e, w)
                             | (Done _, w) => (Done tt, remit (RPrint MsgResizeDone) w)
                             end
                         end
                     end
               end).2).
  { intros w0 HP0. cbv zeta.
    pose proof (Hlog (ROpen (arg_source a)) w0 ltac:(discriminate) HP0) as HP1.
    destruct (image_size data) as [[iw ih]|]; [|exact HP1].
    destruct (negb (image_loads data)); [exact HP1|].
    unfold ensure_square_1024.
    destruct (negb (iw =? ih)); [exact HP1|].
    assert (Hl : forall v, P v ->
              P (match parse_sizes (arg_sizes a) with
                 | None => (Failed RTypeError, v)
                 | Some sizes =>
                     match rloop a data (string_of_list_ascii (stem (arg_source a)))
                                 sizes v with
                     | (Failed e, w) => (Failed e, w)
                     | (Done _, w) => (Done tt, remit (RPrint MsgResizeDone) w)
                     end
                 end).2).
    { intros v Hv. destruct (parse_sizes (arg_sizes a)) as [sizes|]; [|exact Hv].
      pose proof (Hloop data sizes v Hv) as H.
      destruct (rloop a data _ sizes v) as [[[]|e] w2]; cbn [snd] in *;
        [apply Hlog; [discriminate | exact H] | exact H]. }
    destruct (negb (iw =? 1024)); apply Hl;
      [apply Hlog; [discriminate | exact HP1] | exact HP1]. }
  destruct (rfs w !! arg_out a) as [[c|]|] eqn:Eo; [exact HP| |].
  - apply (Htail w HP).
  - apply (Htail _ (Hmk eq_refl)).
Qed.

(** X12. Without [--overwrite], a run of [resize_pngs.py] never changes
    or removes anything that exists: every path that was a file or a
    directory before the run is the same file or directory after it,
    whether the run returns or raises. *)
Theorem resize_keeps_existing (a : args) (w : rworld) (q : path) (n : node) :
  arg_overwrite a = false ->
  rfs w !! q = Some n ->
  rfs (rmain a w).2 !! q = Some n.
Proof.
  intros Ho Hq.
  apply (resize_main_world (fun v => rfs v !! q = Some n)); auto.
  - intros Hnone. cbn [rset_fs rfs]. rewrite lookup_insert_ne; [exact Hq | congruence].
  - intros data sizes v Hv. now apply resize_loop_keeps.
Qed.


End ResizeProperties.

(** ** The names that [resize_pngs.py] gives, read by [pngs_to_ico.py] *)

Lemma uint_chars_digits (d : Decimal.uint) :
  forallb is_digit (list_ascii_of_string (NilEmpty.string_of_uint d)) = true.
Proof.
  induction d; cbn [NilEmpty.string_of_uint list_ascii_of_string forallb];
    rewrite ?IHd; reflexivity.
Qed.

Lemma fold_uint_pos (d : Decimal.uint) (acc : positive) :
  fold_left (fun a c => 10 * a + (code c - 48))
            (list_ascii_of_string (NilEmpty.string_of_uint d)) (Z.pos acc)
  = Z.pos (Pos.of_uint_acc d acc).
Proof.
  revert acc.
  induction d; intros acc;
    cbn [NilEmpty.string_of_uint list_ascii_of_string fold_left Pos.of_uint_acc];
    [reflexivity | rewrite <- IHd; f_equal; vm_compute (code _ - 48); lia ..].
Qed.

Lemma fold_uint_zero (d : Decimal.uint) :
  fold_left (fun a c => 10 * a + (code c - 48))
            (list_ascii_of_string (NilEmpty.string_of_uint d)) 0
  = Z.of_N (Pos.of_uint d).
Proof.
  induction d;
    cbn [NilEmpty.string_of_uint list_ascii_of_string fold_left Pos.of_uint];
    [reflexivity | exact IHd | ..];
    match goal with
    | |- fold_left _ _ ?x = _ =>
        let v := eval vm_compute in x in
        change x with v
    end;
    rewrite fold_uint_pos; reflexivity.
Qed.

(** [int(str(n))] is [n] for a positive [n], and [str(n)] is a
    non-empty string of digits. *)
Lemma int_py_str (n : Z) :
  0 < n ->
  list_ascii_of_string (py_str n) <> [] /\
  forallb is_digit (list_ascii_of_string (py_str n)) = true /\
  int (list_ascii_of_string (py_str n)) = Some n.
Proof.
  intros Hn. destruct n as [|p|p]; try lia.
  assert (Hs : py_str (Z.pos p) = NilEmpty.string_of_uint (Pos.to_uint p)).
  { unfold py_str. cbn [Z.to_int NilZero.string_of_int].
    pose proof (Unsigned.to_uint_nonnil p) as Hnn.
    destruct (Pos.to_uint p); [congruence | reflexivity ..]. }
  rewrite Hs.
  assert (Hne : list_ascii_of_string (NilEmpty.string_of_uint (Pos.to_uint p)) <> []).
  { pose proof (Unsigned.to_uint_nonnil p) as Hnn.
    destruct (Pos.to_uint p); [congruence | discriminate ..]. }
  split; [exact Hne|]. split; [apply uint_chars_digits|].
  unfold int.
  destruct (list_ascii_of_string (NilEmpty.string_of_uint (Pos.to_uint p)))
    as [|c cs] eqn:E; [congruence|].
  rewrite <- E, uint_chars_digits, fold_uint_zero, Unsigned.of_to. reflexivity.
Qed.

Lemma digits_to_end_digits (ds : list ascii) :
  ds <> [] -> forallb is_digit ds = true -> digits_to_end ds = Some ds.
Proof.
  induction ds as [|c ds IH]; intros Hne Hd; [congruence|].
  cbn in Hd. apply andb_prop in Hd. destruct Hd as [Hc Hd].
  cbn [digits_to_end]. rewrite Hc.
  destruct ds as [|c' ds']; [reflexivity|].
  assert (Hrec : digits_to_end (c' :: ds') = Some (c' :: ds')).
  { apply IH; [discriminate | exact Hd]. }
  destruct ds' as [|c'' ds''].
  - cbn in Hd. apply andb_prop in Hd. destruct Hd as [Hc' _].
    rewrite (is_digit_not_newline c' Hc'), Hrec. reflexivity.
  - rewrite Hrec. reflexivity.
Qed.

Lemma digits_to_end_blocked (x ds : list ascii) :
  ds <> [] -> digits_to_end (x ++ "_"%char :: ds) = None.
Proof.
  intros Hne. destruct ds as [|d ds]; [congruence|]. clear Hne.
  induction x as [|c x IH]; [reflexivity|].
  cbn [app digits_to_end]. destruct (is_digit c); [|reflexivity].
  destruct x as [|c' x'].
  - cbn [app] in *. now rewrite IH.
  - cbn [app] in *. rewrite IH.
    destruct (x' ++ "_"%char :: d :: ds) eqn:E; [|reflexivity].
    now destruct x'.
Qed.

(** A stem that ends in an underscore and digits matches at the
    underscore. *)
Lemma SIZE_RE_underscore (g1 g ds : list ascii) :
  forallb (fun c => negb (is_newline c)) g = true ->
  ds <> [] -> forallb is_digit ds = true ->
  SIZE_RE_from g1 (g ++ "_"%char :: ds) = Some (g1 ++ g, ds).
Proof.
  intros Hg Hne Hd. revert g1. induction g as [|c g IH]; intros g1.
  - cbn [app]. destruct ds as [|d ds']; [congruence|].
    cbn [SIZE_RE_from suffix_match]. change (is_sep "_") with true. cbv iota.
    rewrite (digits_to_end_digits (d :: ds') Hne Hd). now rewrite app_nil_r.
  - cbn in Hg. apply andb_prop in Hg. destruct Hg as [Hc Hg].
    apply negb_true_iff in Hc.
    cbn [app SIZE_RE_from].
    assert (Hs : suffix_match (c :: g ++ "_"%char :: ds) = None).
    { pose proof (digits_to_end_blocked (c :: g) ds Hne) as H1.
      pose proof (digits_to_end_blocked g ds Hne) as H2.
      cbn [app] in H1. unfold suffix_match. rewrite H1, H2.
      now destruct (is_sep c). }
    rewrite Hs, Hc, (IH Hg). now rewrite <- app_assoc.
Qed.

Lemma rfind_app (c : ascii) (a b : list ascii) :
  rfind c (a ++ b)
  = match rfind c b with
    | Some i => Some (List.length a + i)%nat
    | None => rfind c a
    end.
Proof.
  induction a as [|x a IH]; cbn [app rfind List.length].
  - now destruct (rfind c b).
  - rewrite IH. now destruct (rfind c b).
Qed.

Lemma name_joinpath (p : path) (s : string) : name (p ++ [s]) = s.
Proof. unfold name. apply last_last. Qed.

(** The stem of a name that ends in [.png]. *)
Lemma stem_png (p : path) (s : string) (l : list ascii) :
  list_ascii_of_string s = l ++ list_ascii_of_string ".png" ->
  l <> [] -> stem (p ++ [s]) = l.
Proof.
  intros Hs Hne. unfold stem. rewrite name_joinpath, Hs.
  rewrite rfind_app. change (rfind "." (list_ascii_of_string ".png")) with (Some 0%nat).
  cbv beta iota. rewrite Nat.add_0_r, length_app.
  assert (Hlen : (0 < List.length l)%nat).
  { destruct l; [congruence | cbn; lia]. }
  replace ((0 <? List.length l)%nat) with true
    by (symmetry; now apply Nat.ltb_lt).
  replace ((List.length l
            <? List.length l + List.length (list_ascii_of_string ".png") - 1)%nat)
    with true by (symmetry; apply Nat.ltb_lt; cbn; lia).
  cbn [andb]. apply take_app_length.
Qed.

Lemma split_slash_none (cur s : list ascii) :
  existsb (Ascii.eqb "/") s = false -> split_slash cur s = [cur ++ s].
Proof.
  revert cur. induction s as [|c s IH]; intros cur H.
  - cbn. now rewrite app_nil_r.
  - cbn [existsb] in H. apply orb_false_iff in H. destruct H as [Hc Hs].
    cbn [split_slash]. rewrite Ascii.eqb_sym, Hc, IH by exact Hs.
    now rewrite <- app_assoc.
Qed.

(** [p / s] for a name of two characters or more without a slash. *)
Lemma path_div_single (p : path) (s : string) :
  char_in "/" s = false -> (2 <= List.length (list_ascii_of_string s))%nat ->
  path_div p s = p ++ [s].
Proof.
  unfold char_in. intros Hs Hlen. unfold path_div, path_parts.
  rewrite split_slash_none by exact Hs. cbn [app List.filter].
  destruct s as [|c [|c' s']]; cbn in Hlen; try lia.
  cbn [existsb list_ascii_of_string] in Hs.
  apply orb_false_iff in Hs. destruct Hs as [Hc _].
  rewrite Ascii.eqb_sym, Hc.
  cbn [list_ascii_of_string app List.filter map string_of_list_ascii].
  now rewrite string_of_list_ascii_of_string.
Qed.

Lemma char_in_app (c : ascii) (a b : string) :
  char_in c (a +:+ b) = char_in c a || char_in c b.
Proof. unfold char_in. now rewrite list_ascii_of_string_app, existsb_app. Qed.

Lemma chars_target_name (a : args) (base_name : string) (sz : Z) :
  list_ascii_of_string (target_name a base_name sz)
  = list_ascii_of_string (arg_prefix a) ++ list_ascii_of_string base_name ++
    "_"%char :: list_ascii_of_string (py_str sz) ++
    list_ascii_of_string (arg_suffix a) ++ list_ascii_of_string ".png".
Proof. unfold target_name. now rewrite !list_ascii_of_string_app. Qed.

(** A target is the output directory and one more component, as long as
    the prefix, the stem and the suffix hold no slash. *)
Lemma target_path_single (a : args) (base_name : string) (sz : Z) :
  0 < sz ->
  char_in "/" (arg_prefix a) = false -> char_in "/" base_name = false ->
  char_in "/" (arg_suffix a) = false ->
  target_path a base_name sz = arg_out a ++ [target_name a base_name sz].
Proof.
  intros Hsz Hp Hb Hs. unfold target_path. apply path_div_single.
  - unfold target_name. rewrite !char_in_app, Hp, Hb, Hs. cbn [orb].
    destruct (int_py_str sz Hsz) as (_ & Hd & _).
    unfold char_in at 2. rewrite (existsb_eqb_false is_digit "/" _ Hd eq_refl).
    reflexivity.
  - rewrite chars_target_name, !length_app. cbn [List.length]. rewrite !length_app.
    cbn. lia.
Qed.

Lemma target_name_inj (a : args) (base_name : string) (sz1 sz2 : Z) :
  0 < sz1 -> 0 < sz2 ->
  target_name a base_name sz1 = target_name a base_name sz2 -> sz1 = sz2.
Proof.
  intros H1 H2 H. apply (f_equal list_ascii_of_string) in H.
  rewrite !chars_target_name in H.
  apply app_inv_head, app_inv_head in H. injection H as H.
  apply app_inv_tail in H.
  destruct (int_py_str sz1 H1) as (_ & _ & E1).
  destruct (int_py_str sz2 H2) as (_ & _ & E2).
  rewrite H in E1. congruence.
Qed.

(** X14. With an empty suffix argument, the file that [resize_pngs.py]
    writes for the size [sz] has a name that [pngs_to_ico.py] reads back
    to the same size: the stem matches [SIZE_RE] with the prefix and the
    source stem as first group and the digits of [sz] as second, [int]
    of the digits is [sz], and once the file exists it is a candidate of
    size [sz] in the group of the output directory. *)
Theorem resized_name_parses (a : args) (base_name : string) (sz : Z) (w : world) :
  0 < sz ->
  arg_suffix a = "" ->
  char_in "/" (arg_prefix a) = false ->
  char_in "/" base_name = false ->
  forallb (fun c => negb (is_newline c))
          (list_ascii_of_string (arg_prefix a +:+ base_name)) = true ->
  let t := target_path a base_name sz in
  t = arg_out a ++ [target_name a base_name sz] /\
  SIZE_RE_match (stem t)
  = Some (list_ascii_of_string (arg_prefix a +:+ base_name),
          list_ascii_of_string (py_str sz)) /\
  int (list_ascii_of_string (py_str sz)) = Some sz /\
  (is_file w t = true -> candidate w t = Some (folder_name t, (t, sz))).
Proof.
  intros Hsz Hsuf Hp Hb Hnl t.
  destruct (int_py_str sz Hsz) as (Hne & Hd & Hint).
  assert (Ht : t = arg_out a ++ [target_name a base_name sz]).
  { subst t. apply target_path_single; try assumption. now rewrite Hsuf. }
  assert (Hstem : stem t = list_ascii_of_string (arg_prefix a +:+ base_name) ++
                           "_"%char :: list_ascii_of_string (py_str sz)).
  { rewrite Ht. apply stem_png.
    - rewrite chars_target_name, Hsuf, list_ascii_of_string_app.
      cbn [list_ascii_of_string app]. now rewrite <- !app_assoc.
    - now destruct (list_ascii_of_string (arg_prefix a +:+ base_name)). }
  assert (Hm : SIZE_RE_match (stem t)
               = Some (list_ascii_of_string (arg_prefix a +:+ base_name),
                       list_ascii_of_string (py_str sz))).
  { rewrite Hstem. unfold SIZE_RE_match.
    now rewrite (SIZE_RE_underscore [] _ _ Hnl Hne Hd). }
  split; [exact Ht|]. split; [exact Hm|]. split; [exact Hint|].
  intros Hf. unfold candidate. now rewrite Hf, Hm, Hint.
Qed.

(** ** [resize_pngs.py]: a list of sizes, and a full run *)

Lemma parse_sizes_positive (size : option string) (l : list Z) :
  parse_sizes size = Some l -> Forall (fun z => 0 < z) l /\ List.NoDup l.
Proof.
  assert (Hall : l = DEFAULT_SIZE_LARGE ++ DEFAULT_SIZE_SMALL \/
                 l = DEFAULT_SIZE_LARGE \/ l = DEFAULT_SIZE_SMALL ->
                 Forall (fun z => 0 < z) l /\ List.NoDup l).
  { intros [-> | [-> | ->]]; vm_compute; split;
      repeat (constructor; try reflexivity);
      cbn; intuition discriminate. }
  intros H. apply Hall. unfold parse_sizes in H.
  destruct size as [[|c s]|].
  - injection H as <-. now left.
  - destruct (char_in "l" (String c s)); [injection H as <-; auto|].
    destruct (char_in "s" (String c s)); [injection H as <-; auto|].
    discriminate.
  - injection H as <-. now left.
Qed.

Section ResizeRuns.

Variable image_size : bytes -> option (Z * Z).
Variable image_loads : bytes -> bool.
Variable lanczos_png : bytes -> Z -> bytes.
Variable save_fault : path -> option (save_left * string).

Local Abbreviation rloop := (resize_loop lanczos_png save_fault).
Local Abbreviation rmain := (resize_main image_size image_loads lanczos_png save_fault).

(** X15. A comma-separated list of numbers, the form the help text of
    [--sizes] gives, is never parsed: [parse_sizes] falls off its end
    and returns [None]. [main], run with it on a loadable square PNG,
    does not return: it raises, [TypeError] at its loop when the output
    directory is there or is absent with its parent there. It has saved
    nothing, and no path has changed except, possibly, the output
    directory and its ancestors, which [mkdir] may have created. *)
Theorem explicit_sizes_raise (a : args) (size : string) (w : rworld)
        (data : bytes) (iw : Z) :
  arg_sizes a = Some size ->
  size <> "" ->
  forallb (fun c => is_digit c || Ascii.eqb c ",") (list_ascii_of_string size) = true ->
  rfs w !! arg_source a = Some (File data) ->
  string_of_list_ascii (map lower_char (path_suffix (arg_source a))) = ".png" ->
  image_size data = Some (iw, iw) ->
  image_loads data = true ->
  parse_sizes (Some size) = None /\
  (exists e, (rmain a w).1 = Failed e) /\
  (out_ready (rfs w) (arg_out a) -> (rmain a w).1 = Failed RTypeError) /\
  (forall p, In (RSave p) (rlog (rmain a w).2) -> In (RSave p) (rlog w)) /\
  (forall q, is_prefix q (arg_out a) = false -> rfs (rmain a w).2 !! q = rfs w !! q).
Proof.
  intros Hsz Hne Hchars Hsrc Hsuf Hsize Hload.
  assert (Hnone : parse_sizes (Some size) = None).
  { unfold parse_sizes, char_in. destruct size as [|c s]; [congruence|].
    rewrite (existsb_eqb_false _ "l" _ Hchars eq_refl).
    rewrite (existsb_eqb_false _ "s" _ Hchars eq_refl). reflexivity. }
  split; [exact Hnone|].
  unfold resize_main, out_ready. rewrite Hsrc, Hsuf, Hsz, Hnone, Hsize, Hload.
  change (String.eqb ".png" ".png") with true. cbn [negb].
  unfold ensure_square_1024. rewrite Z.eqb_refl. cbn [negb].
  destruct (rfs w !! arg_out a) as [[c|]|] eqn:Eo; cbv zeta;
    destruct (negb (iw =? 1024)); cbn [fst snd remit rset_fs rfs rlog];
    (split; [eauto|]); (split; [intros [H|[H _]]; congruence|]); split;
    try (intros p Hin; rewrite ?in_app_iff in Hin; cbn in Hin;
         intuition discriminate);
    try (intros q Hq; apply not_prefix_ne in Hq;
         rewrite ?lookup_insert_ne by congruence; reflexivity).
Qed.

Lemma save_png_ok (target : path) (content : bytes) (w : rworld) :
  rfs w !! target <> Some Dir ->
  save_fault target = None ->
  save_png save_fault target content w
  = (Done tt, RWorld (<[target := File content]> (rfs w)) (rlog w ++ [RSave target])).
Proof.
  intros Hd Hf. unfold save_png, remit, rset_fs. cbn [rfs rlog]. rewrite Hf.
  destruct (rfs w !! target) as [[c|]|]; congruence.
Qed.

(** With overwrite, targets that are pairwise different and no fault,
    the loop saves every size. *)
Lemma resize_loop_writes (a : args) (data : bytes) (base_name : string)
      (sizes : list Z) (w : rworld) :
  arg_overwrite a = true ->
  Forall (fun sz => 0 < sz) sizes ->
  List.NoDup (map (target_path a base_name) sizes) ->
  (forall sz, In sz sizes ->
     rfs w !! target_path a base_name sz <> Some Dir /\
     save_fault (target_path a base_name sz) = None) ->
  (rloop a data base_name sizes w).1 = Done tt /\
  forall sz, In sz sizes ->
    rfs (rloop a data base_name sizes w).2 !! target_path a base_name sz
    = Some (File (lanczos_png data sz)).
Proof.
  intros Ho. revert w. induction sizes as [|sz sizes IH]; intros w Hpos Hnd Hok.
  - split; [reflexivity | intros sz []].
  - inversion Hpos as [|? ? Hsz Hpos']; subst.
    cbn [map] in Hnd. inversion Hnd as [|? ? Hnin Hnd']; subst.
    destruct (Hok sz (or_introl eq_refl)) as [Hdir Hfault].
    cbn [resize_loop]. replace (sz <=? 0) with false by (symmetry; apply Z.leb_gt; lia).
    rewrite Ho. cbn [negb]. rewrite andb_false_r.
    set (t := target_path a base_name sz) in *.
    rewrite (save_png_ok t (lanczos_png data sz) w Hdir Hfault).
    set (w1 := remit (RPrint (MsgResized t))
                 (RWorld (<[t := File (lanczos_png data sz)]> (rfs w))
                         (rlog w ++ [RSave t]))).
    assert (Hok1 : forall sz', In sz' sizes ->
              rfs w1 !! target_path a base_name sz' <> Some Dir /\
              save_fault (target_path a base_name sz') = None).
    { intros sz' Hin. destruct (Hok sz' (or_intror Hin)) as [Hd Hf].
      split; [|exact Hf]. subst w1. cbn [remit rfs].
      rewrite lookup_insert_ne; [exact Hd|].
      intros Heq. apply Hnin. fold t. rewrite Heq. now apply in_map. }
    destruct (IH w1 Hpos' Hnd' Hok1) as [Hdone Hall].
    split; [exact Hdone|]. intros sz' [<- | Hin]; [|now apply Hall].
    rewrite resize_loop_frame.
    + subst w1. cbn [remit rfs]. apply lookup_insert_eq.
    + intros sz' Hin Heq. apply Hnin. subst t. rewrite Heq. now apply in_map.
Qed.

(** X16. With [--overwrite], a loadable square PNG source, an output
    directory that is there or is absent with its parent there, no
    slash in the prefix, the stem and the suffix, no target that is a
    directory and no fault of the disk, a run returns, and afterwards
    the target of every size of the list holds the image resized to
    that size. *)
Theorem resize_writes_every_size (a : args) (w : rworld) (data : bytes)
        (iw : Z) (sizes : list Z) :
  let base_name := string_of_list_ascii (stem (arg_source a)) in
  rfs w !! arg_source a = Some (File data) ->
  string_of_list_ascii (map lower_char (path_suffix (arg_source a))) = ".png" ->
  out_ready (rfs w) (arg_out a) ->
  image_size data = Some (iw, iw) ->
  image_loads data = true ->
  parse_sizes (arg_sizes a) = Some sizes ->
  arg_overwrite a = true ->
  char_in "/" (arg_prefix a) = false ->
  char_in "/" base_name = false ->
  char_in "/" (arg_suffix a) = false ->
  (forall sz, In sz sizes ->
     rfs w !! target_path a base_name sz <> Some Dir /\
     save_fault (target_path a base_name sz) = None) ->
  (rmain a w).1 = Done tt /\
  forall sz, In sz sizes ->
    rfs (rmain a w).2 !! target_path a base_name sz
    = Some (File (lanczos_png data sz)).
Proof.
  intros base_name Hsrc Hsuf Hout Hsize Hload Hparse Ho Hp Hb Hs Hok.
  destruct (parse_sizes_positive _ _ Hparse) as [Hpos Hnd].
  assert (Hsingle : forall sz, 0 < sz ->
            target_path a base_name sz = arg_out a ++ [target_name a base_name sz]).
  { intros sz Hsz. now apply target_path_single. }
  assert (Hndt : forall l, Forall (fun z => 0 < z) l -> List.NoDup l ->
            List.NoDup (map (target_path a base_name) l)).
  { induction l as [|sz l IH]; intros Hp' Hn'; [constructor|].
    inversion Hp' as [|? ? Hsz Hpos']; subst.
    inversion Hn' as [|? ? Hnin Hnd']; subst.
    cbn [map]. constructor; [|now apply IH].
    intros Hin. apply in_map_iff in Hin. destruct Hin as (sz' & Heq & Hin).
    rewrite List.Forall_forall in Hpos'.
    rewrite (Hsingle sz Hsz), (Hsingle sz' (Hpos' sz' Hin)) in Heq.
    apply app_inv_head in Heq. injection Heq as Heq.
    apply target_name_inj in Heq; [congruence | now apply Hpos' | exact Hsz]. }
  specialize (Hndt sizes Hpos Hnd).
  unfold resize_main. rewrite Hsrc, Hsuf, Hparse, Hsize, Hload.
  change (String.eqb ".png" ".png") with true. cbn [negb].
  unfold ensure_square_1024. rewrite Z.eqb_refl. cbn [negb]. fold base_name.
  assert (Hrun : forall w0,
            (forall q, q <> arg_out a -> rfs w0 !! q = rfs w !! q) ->
            (match rloop a data base_name sizes w0 with
             | (Failed e, w1) => (Failed e, w1)
             | (Done _, w1) => (Done tt, remit (RPrint MsgResizeDone) w1)
             end).1 = Done tt /\
            forall sz, In sz sizes ->
              rfs (match rloop a data base_name sizes w0 with
                   | (Failed e, w1) => (Failed e, w1)
                   | (Done _, w1) => (Done tt, remit (RPrint MsgResizeDone) w1)
                   end).2 !! target_path a base_name sz
              = Some (File (lanczos_png data sz))).
  { intros w0 Hw0.
    assert (Hok0 : forall sz, In sz sizes ->
              rfs w0 !! target_path a base_name sz <> Some Dir /\
              save_fault (target_path a base_name sz) = None).
    { intros sz Hin. destruct (Hok sz Hin) as [Hd Hf]. split; [|exact Hf].
      rewrite Hw0; [exact Hd|].
      rewrite (Hsingle sz (proj1 (List.Forall_forall _ _) Hpos sz Hin)).
      intros Heq. apply (f_equal (@List.length string)) in Heq.
      rewrite length_app in Heq. cbn in Heq. lia. }
    destruct (resize_loop_writes a data base_name sizes w0 Ho Hpos Hndt Hok0)
      as [Hdone Hall].
    destruct (rloop a data base_name sizes w0) as [[[]|e] w1]; cbn [fst snd] in *;
      [|discriminate].
    split; [reflexivity | exact Hall]. }
  unfold out_ready in Hout.
  destruct (rfs w !! arg_out a) as [[c|]|] eqn:Eo;
    [destruct Hout as [H|[H _]]; discriminate| |];
    cbv zeta; destruct (negb (iw =? 1024)); apply Hrun;
    intros q Hq; cbn [remit rset_fs rfs];
    rewrite ?lookup_insert_ne by congruence; reflexivity.
Qed.

End ResizeRuns.

(** ** The further theorems on the sample data *)

Lemma create_touches_only_output_witness :
  fs (create_ico_for_group sample_codec full_disk "a" [(a16, 16)] ["o"] false
                           sample_world).2 !! a16
  = Some (File png16).
Proof.
  refine (eq_trans (proj1 (create_touches_only_output sample_codec full_disk "a"
                             [(a16, 16)] ["o"] false sample_world a16 _ _)) _).
  - reflexivity.
  - discriminate.
  - reflexivity.
Defined.

Lemma create_raises_witness :
  create_ico_for_group sample_codec no_fault "a" [(["r"; "a"; "a_16.png"], 16)]
                       ["o"] false blocked_world
  = (Raised (FileExistsError ["o"]), blocked_world).
Proof.
  apply (proj1 (create_raises sample_codec no_fault "a"
                  [(["r"; "a"; "a_16.png"], 16)] ["o"] false blocked_world)).
  reflexivity.
Defined.


Lemma main_without_work_witness :
  main sample_codec no_fault ["r"] ["o"] false plain_world
  = (Returned tt, World (fs plain_world) [Print MsgNoPng]).
Proof.
  refine (proj2 (main_without_work sample_codec no_fault ["r"] ["o"] false
                   plain_world) _ _ _).
  - reflexivity.
  - intros p Hp. vm_compute in Hp.
    repeat (destruct Hp as [<-|Hp]; [reflexivity|]). destruct Hp.
  - intros p Hp. vm_compute in Hp.
    repeat (destruct Hp as [<-|Hp]; [reflexivity|]). destruct Hp.
Defined.

Lemma main_touches_only_outputs_witness :
  fs (main sample_codec full_disk ["r"] ["o"] true sample_world).2 !! a32
  = Some (File png30).
Proof.
  refine (eq_trans (main_touches_only_outputs sample_codec full_disk ["r"] ["o"]
                      true sample_world a32 _ _) _).
  - reflexivity.
  - right. discriminate.
  - reflexivity.
Defined.

Lemma resize_keeps_existing_witness :
  rfs (resize_main sample_codec always_loads sample_lanczos no_save_fault
                   args_keep resize_world).2 !! ["o"; "icon_16.png"]
  = Some (File [x01]).
Proof.
  refine (resize_keeps_existing sample_codec always_loads sample_lanczos
            no_save_fault args_keep resize_world ["o"; "icon_16.png"] (File [x01]) _ _).
  - reflexivity.
  - reflexivity.
Defined.

Lemma resized_name_parses_witness :
  target_path args_small "icon" 16 = ["o"; "icon_16.png"] /\
  int (list_ascii_of_string (py_str 16)) = Some 16.
Proof.
  pose proof (resized_name_parses args_small "icon" 16 sample_world
                ltac:(lia) eq_refl eq_refl eq_refl eq_refl) as H.
  cbv zeta in H. destruct H as (Ht & _ & Hi & _).
  split; [exact Ht | exact Hi].
Defined.

Lemma explicit_sizes_raise_witness :
  (resize_main sample_codec always_loads sample_lanczos no_save_fault
               args_list resize_world).1 = Failed RTypeError.
Proof.
  refine (proj1 (proj2 (proj2 (explicit_sizes_raise sample_codec always_loads
                                 sample_lanczos no_save_fault args_list
                                 "256,128,64" resize_world icon_data 64
                                 _ _ _ _ _ _ _))) _).
  - reflexivity.
  - discriminate.
  - reflexivity.
  - reflexivity.
  - reflexivity.
  - reflexivity.
  - reflexivity.
  - left. reflexivity.
Defined.

Lemma resize_writes_every_size_witness :
  rfs (resize_main sample_codec always_loads sample_lanczos no_save_fault
                   args_small resize_world).2 !! ["o"; "icon_16.png"]
  = Some (File (sample_lanczos icon_data 16)).
Proof.
  refine (proj2 (resize_writes_every_size sample_codec always_loads sample_lanczos
                   no_save_fault args_small resize_world icon_data 64
                   (py_range 60 15 (-4)) _ _ _ _ _ _ _ _ _ _ _) 16 _).
  - reflexivity.
  - reflexivity.
  - left. reflexivity.
  - reflexivity.
  - reflexivity.
  - reflexivity.
  - reflexivity.
  - reflexivity.
  - reflexivity.
  - reflexivity.
  - intros sz Hin. split; [|reflexivity].
    vm_compute in Hin.
    repeat (destruct Hin as [<- | Hin]; [vm_compute; discriminate|]).
    destruct Hin.
  - vm_compute. auto 20.
Defined.
